(** * libpmemobj++ pool handles: [pmem::obj::pool_base] and [pmem::obj::pool<T>]

    A shallow embedding of [include/libpmemobj++/pool.hpp].  The header is a
    thin C++ layer over the C engine libpmemobj: every method either checks
    the handle, throws, or forwards to a [pmemobj_*] call.  The engine is an
    interface here ([Engine]); the C++ side (the handle, the heap-allocated
    [detail::pool_data] record, exceptions) is modelled concretely.  *)

From Stdlib Require Import ZArith.
From stdpp Require Import base option gmap strings list.

Local Open Scope N_scope.
Local Open Scope string_scope.

(** ** Pointers and plain C data *)

(** Addresses ([PMEMobjpool *], [void *], [detail::pool_data *]) are natural
    numbers; [nullptr] is 0. *)
Abbreviation ptr := N (only parsing).
Definition nullptr : ptr := 0.

(** [PMEMoid] of libpmemobj: pool id and offset. *)
Record PMEMoid := mkPMEMoid { pool_uuid_lo : N; off : N }.

(** [persistent_ptr<T>] as built by [persistent_ptr<T> root = <PMEMoid>]. *)
Record persistent_ptr := mk_persistent_ptr { raw : PMEMoid }.

(** [struct pobj_defrag_result { size_t total; size_t relocated; }]. *)
Record pobj_defrag_result := mk_defrag_result { total : N; relocated : N }.

(** [<errno.h>] values tested by [check_pool] (Linux numbering). *)
Definition ENOENT : Z := 2.
Definition EEXIST : Z := 17.
Definition EINVAL : Z := 22.
Definition EFBIG : Z := 27.

(** [<sys/stat.h>] permission bits and the default create mode
    [S_IWUSR | S_IRUSR]. *)
Definition S_IRUSR : N := 256.
Definition S_IWUSR : N := 128.
Definition DEFAULT_MODE : N := N.lor S_IWUSR S_IRUSR.

(** ** Exceptions *)

Inductive exn_class :=
| logic_error                                   (* std::logic_error *)
| pool_error                                    (* pmem::pool_error *)
| pool_invalid_argument                         (* pmem::pool_invalid_argument *)
| defrag_error (result : pobj_defrag_result)    (* pmem::defrag_error, with its result member *)
| ctl_error                                     (* pmem::ctl_error *)
| bad_alloc.                                    (* std::bad_alloc *)

(** An exception object: its class, its [what()] text, and the engine's
    diagnostic message when one was attached. *)
Record exn := mk_exn {
  exn_class_of : exn_class;
  what : string;
  diagnostic : option string
}.

Definition raise_of (c : exn_class) (msg : string) : exn :=
  {| exn_class_of := c; what := msg; diagnostic := None |}.

(** The outcome of running a piece of C++ from a world of type [W]: normal
    return or a propagating exception, each with the world it leaves, or
    undefined behaviour (a dereference of a dead or null pointer at this
    layer, or a call the engine gives no meaning to), which leaves none. *)
Inductive outcome (W A : Type) : Type :=
| Ok (a : A) (w : W)
| Throw (e : exn) (w : W)
| Undefined.
Arguments Ok {W A} a w.
Arguments Throw {W A} e w.
Arguments Undefined {W A}.

Definition is_Ok {W A} (o : outcome W A) : bool :=
  match o with Ok _ _ => true | _ => false end.
Definition is_Throw {W A} (o : outcome W A) : bool :=
  match o with Throw _ _ => true | _ => false end.

(** ** The user-data record *)

(** A cleanup action is an opaque callback; running it is observable only
    through the trace. *)
Definition action := nat.

(** Modelled from the spec: [detail::pool_data] (detail/pool_data.hpp) is not
    among the sources at hand.  The spec gives it an initialized flag, cleared when the
    record is created and set by higher layers on first use, and an ordered
    collection of cleanup actions, kept here in registration order;
    [user_data->cleanup()] runs them in that order and each returns
    normally. *)
Record pool_data := mk_pool_data {
  initialized : bool;
  cleanup : list action
}.

Definition new_pool_data : pool_data :=
  {| initialized := false; cleanup := [] |}.

(** ** The engine interface *)

(** libpmemobj and the pieces of the C runtime the header touches.  [E] is the
    engine's whole state: pool files, open pools with their user-data slot,
    mapped memory and what of it is durable, [errno] and the last error
    message, and whether the free store has room for one more
    [detail::pool_data].  A call of which C gives no meaning (a pool pointer
    that is not an open pool) answers [None].  [pool_is_open] and
    [path_exists] are never called by the header; they only serve to state
    the engine's contract. *)
Class Engine (E : Type) := {
  errno : E → Z;
  free_store_exhausted : E → bool;
  pmemobj_errormsg : E → string;
  pool_is_open : ptr → E → bool;
  path_exists : string → E → bool;
  pmemobj_open : string → string → E → ptr * E;
  pmemobj_create : string → string → N → N → E → ptr * E;
  pmemobj_check : string → string → E → Z * E;
  pmemobj_close : ptr → E → option E;
  pmemobj_set_user_data : ptr → ptr → E → option E;
  pmemobj_get_user_data : ptr → E → option ptr;
  pmemobj_persist : ptr → N → N → E → option E;
  pmemobj_flush : ptr → N → N → E → option E;
  pmemobj_drain : ptr → E → option E;
  pmemobj_memcpy_persist : ptr → N → N → N → E → option (N * E);
  pmemobj_memset_persist : ptr → N → Z → N → E → option (N * E);
  pmemobj_defrag : ptr → list N → N → E → option (Z * pobj_defrag_result * E);
  pmemobj_root : ptr → N → E → option (PMEMoid * E);
  memcpy : N → N → N → E → option E;
  memset : N → Z → N → E → option E
}.

(** ** The world and the monad of C++ computations *)

(** What this layer's own steps leave in the trace. *)
Inductive event :=
| EvNew (ud : ptr)        (* new detail::pool_data, placed at ud *)
| EvCleanup (a : action)  (* cleanup action a ran *)
| EvDelete (ud : ptr)     (* delete user_data *)
| EvClose (pop : ptr).    (* pmemobj_close(pop) returned *)

Section World.
Context {E : Type}.

Record world := mk_world {
  eng : E;                       (* engine state *)
  heap : gmap N pool_data;       (* live objects made by new detail::pool_data *)
  trace : list event
}.

Definition set_eng (e : E) (w : world) : world :=
  {| eng := e; heap := heap w; trace := trace w |}.

Definition M (A : Type) : Type := world → outcome world A.

Definition pure {A} (a : A) : M A := λ w, Ok a w.

Definition bind {A B} (m : M A) (k : A → M B) : M B :=
  λ w, match m w with
       | Ok a w' => k a w'
       | Throw e w' => Throw e w'
       | Undefined => Undefined
       end.

Definition throw {A} (e : exn) : M A := λ w, Throw e w.

Definition emit (ev : event) : M unit :=
  λ w, Ok tt {| eng := eng w; heap := heap w; trace := trace w ++ [ev] |}.

(** A call into the engine that may change its state. *)
Definition call {A} (f : E → option (A * E)) : M A :=
  λ w, match f (eng w) with
       | Some (a, e') => Ok a (set_eng e' w)
       | None => Undefined
       end.

Definition call_ (f : E → option E) : M unit :=
  call (λ e, (λ e', (tt, e')) <$> f e).

(** A call that always answers (it takes no pool pointer). *)
Definition call_total {A} (f : E → A * E) : M A :=
  call (λ e, Some (f e)).

(** A call that only reads the engine state. *)
Definition query {A} (f : E → option A) : M A :=
  call (λ e, (λ a, (a, e)) <$> f e).

Definition read {A} (f : E → A) : M A := λ w, Ok (f (eng w)) w.

End World.

Arguments world E : clear implicits.
Arguments M E A : clear implicits.

Declare Scope cpp_scope.
Delimit Scope cpp_scope with cpp.
Notation "x <- m ;; k" := (bind m (λ x, k))
  (at level 100, m at next level, right associativity) : cpp_scope.
Notation "m ;;; k" := (bind m (λ _, k))
  (at level 100, right associativity) : cpp_scope.

(** ** [class pool_base] *)

(** The only data member: [PMEMobjpool *pop]. *)
Record pool_base := mk_pool_base { pop : ptr }.

(** [pool_base()], [explicit pool_base(pmemobjpool *cpop)] and the defaulted
    copy/move constructors and assignments, which copy the member. *)
Definition pool_base_default : pool_base := {| pop := nullptr |}.
Definition pool_base_of (cpop : ptr) : pool_base := {| pop := cpop |}.
Definition copy (other : pool_base) : pool_base := {| pop := pop other |}.

Section PoolBase.
Context {E : Type} `{Engine E}.
Local Open Scope cpp_scope.

(** Modelled from the spec: [with_pmemobj_errormsg] (pexceptions.hpp) is not
    among the sources at hand.  The spec says the exception carries the lower-level
    diagnostic message; the class, the [what()] text and a [defrag_error]'s
    result stay as they were constructed. *)
Definition with_pmemobj_errormsg (e : exn) : M E exn :=
  msg <- read pmemobj_errormsg ;;
  pure {| exn_class_of := exn_class_of e; what := what e; diagnostic := Some msg |}.

(** [new detail::pool_data]: [std::bad_alloc] when the free store is
    exhausted, with nothing allocated; otherwise a fresh non-null address
    holding a freshly constructed record. *)
Definition fresh_addr (hp : gmap N pool_data) : ptr :=
  fresh ({[nullptr]} ∪ dom hp).

Definition new_detail_pool_data : M E ptr :=
  λ w, if free_store_exhausted (eng w) then
         Throw (raise_of bad_alloc "std::bad_alloc") w
       else
         let ud := fresh_addr (heap w) in
         Ok ud {| eng := eng w;
                  heap := <[ud := new_pool_data]> (heap w);
                  trace := trace w ++ [EvNew ud] |}.

(** [*user_data]: reading through a null or dead pointer is undefined. *)
Definition deref (ud : ptr) : M E pool_data :=
  λ w, if decide (ud = nullptr) then Undefined
       else match heap w !! ud with
            | Some r => Ok r w
            | None => Undefined
            end.

(** [user_data->cleanup()]. *)
Fixpoint run_actions (l : list action) : M E unit :=
  match l with
  | [] => pure tt
  | a :: l' => emit (EvCleanup a) ;;; run_actions l'
  end.

(** [delete user_data]: a no-op on null, undefined on a dead pointer. *)
Definition delete_pool_data (ud : ptr) : M E unit :=
  λ w, if decide (ud = nullptr) then Ok tt w
       else match heap w !! ud with
            | Some _ => Ok tt {| eng := eng w;
                                 heap := delete ud (heap w);
                                 trace := trace w ++ [EvDelete ud] |}
            | None => Undefined
            end.

(** [static void check_pool(pmemobjpool *pop, std::string mode)] *)
Definition check_pool (pop : ptr) (mode : string) : M E unit :=
  if decide (pop = nullptr) then
    en <- read errno ;;
    if (en =? EINVAL)%Z || (en =? EFBIG)%Z || (en =? ENOENT)%Z || (en =? EEXIST)%Z then
      e <- with_pmemobj_errormsg
             (raise_of pool_invalid_argument ("Failed " +:+ mode +:+ " pool")) ;;
      throw e
    else
      e <- with_pmemobj_errormsg
             (raise_of pool_error ("Failed " +:+ mode +:+ " pool")) ;;
      throw e
  else pure tt.

(** [static pool_base open(const std::string &path, const std::string &layout)] *)
Definition open (path layout : string) : M E pool_base :=
  pop <- call_total (pmemobj_open path layout) ;;
  check_pool pop "opening" ;;;
  ud <- new_detail_pool_data ;;
  call_ (pmemobj_set_user_data pop ud) ;;;
  pure (pool_base_of pop).

(** [static pool_base create(path, layout, size, mode)] *)
Definition create (path layout : string) (size mode : N) : M E pool_base :=
  pop <- call_total (pmemobj_create path layout size mode) ;;
  check_pool pop "creating" ;;;
  ud <- new_detail_pool_data ;;
  call_ (pmemobj_set_user_data pop ud) ;;;
  pure (pool_base_of pop).

(** [static int check(path, layout) noexcept] *)
Definition check (path layout : string) : M E Z :=
  call_total (pmemobj_check path layout).

(** [void close()]: the result is the handle object after the call; when the
    call throws, the object is as it was. *)
Definition close (this : pool_base) : M E pool_base :=
  if decide (pop this = nullptr) then
    throw (raise_of logic_error "Pool already closed")
  else
    user_data <- query (pmemobj_get_user_data (pop this)) ;;
    r <- deref user_data ;;
    (if initialized r then run_actions (cleanup r) else pure tt) ;;;
    delete_pool_data user_data ;;;
    call_ (pmemobj_close (pop this)) ;;;
    emit (EvClose (pop this)) ;;;
    pure {| pop := nullptr |}.

(** [void persist(const void *addr, size_t len) noexcept] *)
Definition persist (this : pool_base) (addr len : N) : M E unit :=
  call_ (pmemobj_persist (pop this) addr len).

(** [persist(const p<Y> &prop)]: [&prop], [sizeof(Y)]. *)
Definition persist_p (this : pool_base) (prop sizeof_Y : N) : M E unit :=
  call_ (pmemobj_persist (pop this) prop sizeof_Y).

(** [persist(const persistent_ptr<Y> &ptr)]: [&ptr], [sizeof(ptr)]. *)
Definition persist_ptr (this : pool_base) (p sizeof_ptr : N) : M E unit :=
  call_ (pmemobj_persist (pop this) p sizeof_ptr).

(** [void flush(const void *addr, size_t len) noexcept] *)
Definition flush (this : pool_base) (addr len : N) : M E unit :=
  call_ (pmemobj_flush (pop this) addr len).

Definition flush_p (this : pool_base) (prop sizeof_Y : N) : M E unit :=
  call_ (pmemobj_flush (pop this) prop sizeof_Y).

Definition flush_ptr (this : pool_base) (p sizeof_ptr : N) : M E unit :=
  call_ (pmemobj_flush (pop this) p sizeof_ptr).

(** [void drain(void) noexcept] *)
Definition drain (this : pool_base) : M E unit :=
  call_ (pmemobj_drain (pop this)).

(** [void *memcpy_persist(void *dest, const void *src, size_t len) noexcept] *)
Definition memcpy_persist (this : pool_base) (dest src len : N) : M E N :=
  call (pmemobj_memcpy_persist (pop this) dest src len).

(** [void *memset_persist(void *dest, int c, size_t len) noexcept] *)
Definition memset_persist (this : pool_base) (dest : N) (c : Z) (len : N) : M E N :=
  call (pmemobj_memset_persist (pop this) dest c len).

(** [PMEMobjpool *handle() noexcept] and the deprecated [get_handle()]. *)
Definition handle (this : pool_base) : ptr := pop this.
Definition get_handle (this : pool_base) : ptr := handle this.

(** [pobj_defrag_result defrag(persistent_ptr_base **ptrv, size_t oidcnt)]:
    [result] is what the engine left in the out-parameter. *)
Definition defrag (this : pool_base) (ptrv : list N) (oidcnt : N)
  : M E pobj_defrag_result :=
  rr <- call (pmemobj_defrag (pop this) ptrv oidcnt) ;;
  let '(ret, result) := rr in
  if decide (ret ≠ 0%Z) then
    e <- with_pmemobj_errormsg
           (raise_of (defrag_error result) "Defragmentation failed") ;;
    throw e
  else pure result.

End PoolBase.

(** ** [template <typename T> class pool : public pool_base] *)

(** A [pool<T>] adds no member to [pool_base]; the model keeps the record
    and takes [sizeof(T)] as a parameter.  [ctl_get_detail], [ctl_set_detail]
    and [ctl_exec_detail] (detail/ctl.hpp) are not among the sources at hand
    and are taken as parameters, over the payload type [V] (the template argument [M] of
    the source). *)
Section Pool.
Context {E : Type} `{Engine E}.
Variable sizeof_T : N.
Context {V : Type}.
Variable ctl_get_detail : ptr → string → M E V.
Variable ctl_set_detail : ptr → string → V → M E V.
Variable ctl_exec_detail : ptr → string → V → M E V.
Local Open Scope cpp_scope.

(** [explicit pool(const pool_base &pb)] and [explicit pool(pool_base &&pb)]. *)
Definition pool_of (pb : pool_base) : pool_base := copy pb.

(** [pool<T>::ctl_get], [ctl_set], [ctl_exec]: pool scope. *)
Definition pool_ctl_get (this : pool_base) (name : string) : M E V :=
  ctl_get_detail (pop this) name.

Definition pool_ctl_set (this : pool_base) (name : string) (arg : V) : M E V :=
  ctl_set_detail (pop this) name arg.

Definition pool_ctl_exec (this : pool_base) (name : string) (arg : V) : M E V :=
  ctl_exec_detail (pop this) name arg.

(** [persistent_ptr<T> root()] and the deprecated [get_root()]. *)
Definition root (this : pool_base) : M E persistent_ptr :=
  if decide (pop this = nullptr) then
    throw (raise_of pool_error "Invalid pool handle")
  else
    oid <- call (pmemobj_root (pop this) sizeof_T) ;;
    pure (mk_persistent_ptr oid).

Definition get_root (this : pool_base) : M E persistent_ptr := root this.

(** [pool<T>::open], [pool<T>::create], [pool<T>::check]. *)
Definition pool_open (path layout : string) : M E pool_base :=
  pb <- open path layout ;; pure (pool_of pb).

Definition pool_create (path layout : string) (size mode : N) : M E pool_base :=
  pb <- create path layout size mode ;; pure (pool_of pb).

Definition pool_check (path layout : string) : M E Z :=
  check path layout.

(** Namespace-level [ctl_get], [ctl_set], [ctl_exec]: global scope. *)
Definition ctl_get (name : string) : M E V :=
  ctl_get_detail nullptr name.

Definition ctl_set (name : string) (arg : V) : M E V :=
  ctl_set_detail nullptr name arg.

Definition ctl_exec (name : string) (arg : V) : M E V :=
  ctl_exec_detail nullptr name arg.

End Pool.

(** ** Handle states and the engine's contract *)

Section Contract.
Context {E : Type} `{Engine E}.
Local Open Scope cpp_scope.

(** The handle states of the spec.  A handle is Bound when it holds an open
    pool; a handle that still holds the pointer of a pool closed through
    another copy is neither. *)
Definition Unbound (this : pool_base) : Prop := pop this = nullptr.

Definition Bound (this : pool_base) (w : world E) : Prop :=
  pop this ≠ nullptr ∧ pool_is_open (pop this) (eng w) = true.

(** libpmemobj's documented behaviour, one statement per group of calls.
    Each theorem below assumes only the statements it needs. *)

(** A non-null answer of [pmemobj_open] / [pmemobj_create] is an open pool. *)
Definition open_contract : Prop :=
  ∀ path layout e,
    let '(p, e') := pmemobj_open path layout e in
    p ≠ nullptr → pool_is_open p e' = true.

Definition create_contract : Prop :=
  ∀ path layout size mode e,
    let '(p, e') := pmemobj_create path layout size mode e in
    p ≠ nullptr → pool_is_open p e' = true.

(** An open pool has a user-data slot: what is set is what is read back. *)
Definition user_data_contract : Prop :=
  ∀ p ud e, pool_is_open p e = true →
    ∃ e', pmemobj_set_user_data p ud e = Some e'
          ∧ pool_is_open p e' = true
          ∧ pmemobj_get_user_data p e' = Some ud.

(** On an open pool the durability calls are defined for every argument. *)
Definition durability_contract : Prop :=
  ∀ p e, pool_is_open p e = true →
    (∀ addr len, is_Some (pmemobj_persist p addr len e))
    ∧ (∀ addr len, is_Some (pmemobj_flush p addr len e))
    ∧ is_Some (pmemobj_drain p e)
    ∧ (∀ dest src len, is_Some (pmemobj_memcpy_persist p dest src len e))
    ∧ (∀ dest c len, is_Some (pmemobj_memset_persist p dest c len e)).

(** Modelled from the spec: [pmemobj_memcpy_persist] and
    [pmemobj_memset_persist] belong to the engine, whose code is not among
    the sources at hand.  On an open pool they perform the plain copy or
    fill, then [pmemobj_persist] of the destination range, and answer
    [dest]. *)
Definition memcpy_persist_contract : Prop :=
  ∀ p dest src len e, pool_is_open p e = true →
    pmemobj_memcpy_persist p dest src len e =
      (e1 ← memcpy dest src len e;
       e2 ← pmemobj_persist p dest len e1;
       Some (dest, e2)).

Definition memset_persist_contract : Prop :=
  ∀ p dest c len e, pool_is_open p e = true →
    pmemobj_memset_persist p dest c len e =
      (e1 ← memset dest c len e;
       e2 ← pmemobj_persist p dest len e1;
       Some (dest, e2)).

(** Modelled from the spec: [pmemobj_check] belongs to the engine, whose
    code is not among the sources at hand.  It answers -1 on error, 1 if the
    pool is consistent, 0 otherwise; a path that does not exist is an
    error. *)
Definition check_contract : Prop :=
  ∀ path layout e,
    let r := (pmemobj_check path layout e).1 in
    (r = (-1)%Z ∨ r = 1%Z ∨ r = 0%Z)
    ∧ (path_exists path e = false → r = (-1)%Z).

(** An open pool can be closed, and is not open afterwards. *)
Definition close_contract : Prop :=
  ∀ p e, pool_is_open p e = true →
    ∃ e', pmemobj_close p e = Some e' ∧ pool_is_open p e' = false.

(** A null pool pointer is given no meaning by the calls that work on a
    pool's memory. *)
Definition null_pool_contract : Prop :=
  ∀ e,
    (∀ addr len, pmemobj_persist nullptr addr len e = None)
    ∧ (∀ addr len, pmemobj_flush nullptr addr len e = None)
    ∧ pmemobj_drain nullptr e = None
    ∧ (∀ ptrv oidcnt, pmemobj_defrag nullptr ptrv oidcnt e = None).

End Contract.

(** ** A reference engine *)

(** A small executable engine: pool files with a layout tag and a
    consistency bit, open pools with their user-data slot, byte memory with a
    durable copy and a list of flushed ranges awaiting [drain], and a table of
    named entry points.  It meets every contract above and serves to run
    the header on concrete inputs. *)
Module Ref.

Definition PMEMOBJ_MIN_POOL : N := 8 * 1024 * 1024.
Definition EAGAIN : Z := 11.
Definition EACCES : Z := 13.

Record pool_file := mk_pool_file { file_layout : string; file_consistent : bool }.

Record state := mk_state {
  files : gmap string pool_file;
  pools : gmap N (string * N);   (* open pool ↦ (its path, its user-data slot) *)
  mem : gmap N Z;                (* mapped bytes as the CPU sees them *)
  media : gmap N Z;              (* mapped bytes that are durable *)
  pending : list (N * N);        (* flushed ranges not yet drained *)
  ctl_tree : gmap string Z;      (* named entry points *)
  last_errno : Z;
  last_msg : string;
  store_exhausted : bool         (* operator new has no room left *)
}.

Definition fail (en : Z) (msg : string) (s : state) : state :=
  mk_state (files s) (pools s) (mem s) (media s) (pending s) (ctl_tree s) en msg
           (store_exhausted s).

Definition with_pools (ps : gmap N (string * N)) (s : state) : state :=
  mk_state (files s) ps (mem s) (media s) (pending s) (ctl_tree s)
           (last_errno s) (last_msg s) (store_exhausted s).

Definition with_files (fs : gmap string pool_file) (s : state) : state :=
  mk_state fs (pools s) (mem s) (media s) (pending s) (ctl_tree s)
           (last_errno s) (last_msg s) (store_exhausted s).

Definition with_mem (m : gmap N Z) (s : state) : state :=
  mk_state (files s) (pools s) m (media s) (pending s) (ctl_tree s)
           (last_errno s) (last_msg s) (store_exhausted s).

Definition with_durable (md : gmap N Z) (pd : list (N * N)) (s : state) : state :=
  mk_state (files s) (pools s) (mem s) md pd (ctl_tree s)
           (last_errno s) (last_msg s) (store_exhausted s).

Definition with_ctl (t : gmap string Z) (s : state) : state :=
  mk_state (files s) (pools s) (mem s) (media s) (pending s) t
           (last_errno s) (last_msg s) (store_exhausted s).

Definition with_store_exhausted (b : bool) (s : state) : state :=
  mk_state (files s) (pools s) (mem s) (media s) (pending s) (ctl_tree s)
           (last_errno s) (last_msg s) b.

Definition is_open (p : ptr) (s : state) : bool :=
  negb (p =? nullptr)%N && bool_decide (is_Some (pools s !! p)).

Definition exists_path (path : string) (s : state) : bool :=
  bool_decide (is_Some (files s !! path)).

Definition already_open (path : string) (s : state) : bool :=
  existsb (λ kv, bool_decide (kv.2.1 = path)) (map_to_list (pools s)).

(** Pools are mapped at page-aligned addresses. *)
Definition page : N := 4096.

Definition fresh_pool (s : state) : ptr :=
  page * fresh ({[0]} ∪ set_map (λ p, p / page) (dom (pools s)) : gset N).

Definition attach (path : string) (s : state) : ptr * state :=
  let p := fresh_pool s in (p, with_pools (<[p := (path, nullptr)]> (pools s)) s).

Definition open (path layout : string) (s : state) : ptr * state :=
  match files s !! path with
  | None => (nullptr, fail ENOENT "No such file or directory" s)
  | Some f =>
      if negb (bool_decide (layout = "" ∨ layout = file_layout f)) then
        (nullptr, fail EINVAL "wrong layout" s)
      else if already_open path s then
        (nullptr, fail EAGAIN "Resource temporarily unavailable" s)
      else attach path s
  end.

Definition create (path layout : string) (size mode : N) (s : state) : ptr * state :=
  match files s !! path with
  | Some _ => (nullptr, fail EEXIST "File exists" s)
  | None =>
      if (size <? PMEMOBJ_MIN_POOL)%N then
        (nullptr, fail EINVAL "size below PMEMOBJ_MIN_POOL" s)
      else if (N.land mode S_IWUSR =? 0)%N then
        (nullptr, fail EACCES "Permission denied" s)
      else attach path (with_files (<[path := mk_pool_file layout true]> (files s)) s)
  end.

Definition check (path layout : string) (s : state) : Z * state :=
  match files s !! path with
  | None => ((-1)%Z, fail ENOENT "No such file or directory" s)
  | Some f =>
      if negb (bool_decide (layout = "" ∨ layout = file_layout f)) then
        ((-1)%Z, fail EINVAL "wrong layout" s)
      else ((if file_consistent f then 1 else 0)%Z, s)
  end.

Definition close (p : ptr) (s : state) : option state :=
  if is_open p s then Some (with_pools (delete p (pools s)) s) else None.

Definition set_user_data (p ud : ptr) (s : state) : option state :=
  if is_open p s then
    Some (with_pools (alter (λ e, (e.1, ud)) p (pools s)) s)
  else None.

Definition get_user_data (p : ptr) (s : state) : option ptr :=
  if is_open p s then snd <$> pools s !! p else None.

Definition load (m : gmap N Z) (a : N) : Z := default 0%Z (m !! a).

Fixpoint copy_bytes (from : gmap N Z) (dest src : N) (n : nat) (m : gmap N Z)
  : gmap N Z :=
  match n with
  | O => m
  | S n' => copy_bytes from (N.succ dest) (N.succ src) n' (<[dest := load from src]> m)
  end.

Fixpoint fill_bytes (dest : N) (c : Z) (n : nat) (m : gmap N Z) : gmap N Z :=
  match n with
  | O => m
  | S n' => fill_bytes (N.succ dest) c n' (<[dest := (c mod 256)%Z]> m)
  end.

Definition do_memcpy (dest src len : N) (s : state) : option state :=
  Some (with_mem (copy_bytes (mem s) dest src (N.to_nat len) (mem s)) s).

Definition do_memset (dest : N) (c : Z) (len : N) (s : state) : option state :=
  Some (with_mem (fill_bytes dest c (N.to_nat len) (mem s)) s).

Definition flush (p : ptr) (addr len : N) (s : state) : option state :=
  if is_open p s then Some (with_durable (media s) ((addr, len) :: pending s) s)
  else None.

Definition write_back (m : gmap N Z) (range : N * N) (md : gmap N Z) : gmap N Z :=
  copy_bytes m range.1 range.1 (N.to_nat range.2) md.

Definition drain (p : ptr) (s : state) : option state :=
  if is_open p s then
    Some (with_durable (foldr (write_back (mem s)) (media s) (pending s)) [] s)
  else None.

Definition persist (p : ptr) (addr len : N) (s : state) : option state :=
  s1 ← flush p addr len s; drain p s1.

Definition memcpy_persist (p : ptr) (dest src len : N) (s : state)
  : option (N * state) :=
  if is_open p s then
    s1 ← do_memcpy dest src len s;
    s2 ← persist p dest len s1;
    Some (dest, s2)
  else None.

Definition memset_persist (p : ptr) (dest : N) (c : Z) (len : N) (s : state)
  : option (N * state) :=
  if is_open p s then
    s1 ← do_memset dest c len s;
    s2 ← persist p dest len s1;
    Some (dest, s2)
  else None.

(** The relocation pass visits the first [n] references in order and stops,
    with status -1, at the first one that is null or missing. *)
Fixpoint defrag_walk (ptrv : list N) (n : nat) (acc : pobj_defrag_result)
  : Z * pobj_defrag_result :=
  match n, ptrv with
  | O, _ => (0%Z, acc)
  | S _, [] => ((-1)%Z, acc)
  | S n', r :: rest =>
      if (r =? nullptr)%N then ((-1)%Z, acc)
      else defrag_walk rest n'
             {| total := total acc + 1;
                relocated := relocated acc + (if N.even r then 1 else 0) |}
  end.

Definition defrag (p : ptr) (ptrv : list N) (oidcnt : N) (s : state)
  : option (Z * pobj_defrag_result * state) :=
  if is_open p s then
    let '(status, res) := defrag_walk ptrv (N.to_nat oidcnt) (mk_defrag_result 0 0) in
    Some (status, res,
          if (status =? 0)%Z then s else fail EINVAL "relocation failed" s)
  else None.

Definition root_of (p : ptr) (size : N) (s : state) : option (PMEMoid * state) :=
  if is_open p s then Some (mkPMEMoid p 64, s) else None.

#[global] Instance engine : Engine state := {|
  errno := last_errno;
  free_store_exhausted := store_exhausted;
  pmemobj_errormsg := last_msg;
  pool_is_open := is_open;
  path_exists := exists_path;
  pmemobj_open := open;
  pmemobj_create := create;
  pmemobj_check := check;
  pmemobj_close := close;
  pmemobj_set_user_data := set_user_data;
  pmemobj_get_user_data := get_user_data;
  pmemobj_persist := persist;
  pmemobj_flush := flush;
  pmemobj_drain := drain;
  pmemobj_memcpy_persist := memcpy_persist;
  pmemobj_memset_persist := memset_persist;
  pmemobj_defrag := defrag;
  pmemobj_root := root_of;
  memcpy := do_memcpy;
  memset := do_memset
|}.

(** Modelled from the spec: the [ctl_*_detail] helpers (detail/ctl.hpp) are
    not among the sources at hand.  The spec resolves a named entry point against a
    Capability (pool scope) or against no Capability (process-wide scope):
    [get] reads the entry point's value, [set] writes it and answers the value
    applied, [exec] passes a value to the entry point and answers it.  A name
    that is no entry point is reported with [ctl_error]. *)
Definition scope_ok (p : ptr) (s : state) : bool :=
  bool_decide (p = nullptr) || is_open p s.

Definition ctl_get_detail (p : ptr) (name : string) : M state Z :=
  λ w, if scope_ok p (eng w) then
         match ctl_tree (eng w) !! name with
         | Some v => Ok v w
         | None => Throw (raise_of ctl_error "ctl_get failed") w
         end
       else Undefined.

Definition ctl_set_detail (p : ptr) (name : string) (arg : Z) : M state Z :=
  λ w, if scope_ok p (eng w) then
         match ctl_tree (eng w) !! name with
         | Some _ => Ok arg (set_eng (with_ctl (<[name := arg]> (ctl_tree (eng w))) (eng w)) w)
         | None => Throw (raise_of ctl_error "ctl_set failed") w
         end
       else Undefined.

Definition ctl_exec_detail (p : ptr) (name : string) (arg : Z) : M state Z :=
  λ w, if scope_ok p (eng w) then
         match ctl_tree (eng w) !! name with
         | Some _ => Ok arg w
         | None => Throw (raise_of ctl_error "ctl_exec failed") w
         end
       else Undefined.

(** A machine with one consistent pool file, one damaged pool file, no open
    pool, room in the free store, and the process-wide entry point
    [prefault.at_open]. *)
Definition boot : state := {|
  files := {[ "/mnt/pmem/a" := mk_pool_file "t1" true;
              "/mnt/pmem/bad" := mk_pool_file "t1" false ]};
  pools := ∅;
  mem := {[ 100 := 7%Z; 101 := 8%Z; 102 := 9%Z ]};
  media := ∅;
  pending := [];
  ctl_tree := {[ "prefault.at_open" := 0%Z ]};
  last_errno := 0;
  last_msg := "";
  store_exhausted := false
|}.

Definition world0 : world state := {| eng := boot; heap := ∅; trace := [] |}.

End Ref.

(** ** Vocabulary of the statements *)

(** The two exceptions the header builds without a diagnostic message. *)
Definition AlreadyClosed : exn := raise_of logic_error "Pool already closed".
Definition InvalidPoolHandle : exn := raise_of pool_error "Invalid pool handle".

(** What [new] throws when the free store is exhausted. *)
Definition BadAlloc : exn := raise_of bad_alloc "std::bad_alloc".

(** The [errno] values [check_pool] reports as [pool_invalid_argument]. *)
Definition invalid_argument_errno (en : Z) : Prop :=
  en = EINVAL ∨ en = EFBIG ∨ en = ENOENT ∨ en = EEXIST.

#[global] Instance invalid_argument_errno_dec en : Decision (invalid_argument_errno en).
Proof. unfold invalid_argument_errno. apply _. Defined.

Section Vocabulary.
Context {E : Type} `{Engine E}.

(** The exception [open] ("opening") and [create] ("creating") leave when
    the engine answered null and left the state [e]. *)
Definition open_failure (mode : string) (e : E) : exn :=
  {| exn_class_of := if decide (invalid_argument_errno (errno e))
                     then pool_invalid_argument else pool_error;
     what := "Failed " +:+ mode +:+ " pool";
     diagnostic := Some (pmemobj_errormsg e) |}.

(** [res] is what [open] or [create] owes for the engine's answer [(p, e1)]
    in world [w]: the failure above when [p] is null; otherwise, when the
    free store has room, a handle that holds [p] and is Bound in the world
    it comes with, a record as made by [new detail::pool_data] at an address
    [ud] that was free, and [ud] in the user-data slot of the open pool [p]. *)
Definition opened_as (mode : string) (ans : ptr * E) (w : world E)
    (res : outcome (world E) pool_base) : Prop :=
  let '(p, e1) := ans in
  if decide (p = nullptr) then
    res = Throw (open_failure mode e1) (set_eng e1 w)
  else
    free_store_exhausted e1 = false →
    ∃ this w' ud e2,
      res = Ok this w'
      ∧ pop this = p
      ∧ Bound this w'
      ∧ w' = {| eng := e2;
                heap := <[ud := new_pool_data]> (heap w);
                trace := trace w ++ [EvNew ud] |}
      ∧ ud ≠ nullptr
      ∧ heap w !! ud = None
      ∧ pmemobj_set_user_data p ud e1 = Some e2
      ∧ pool_is_open p e2 = true
      ∧ pmemobj_get_user_data p e2 = Some ud.

(** What [open] and [create] do once the engine has answered [(p, e1)]. *)
Definition attached_outcome (mode : string) (p : ptr) (e1 : E) (w : world E)
  : outcome (world E) pool_base :=
  if decide (p = nullptr) then Throw (open_failure mode e1) (set_eng e1 w)
  else if free_store_exhausted e1 then Throw BadAlloc (set_eng e1 w)
  else match pmemobj_set_user_data p (fresh_addr (heap w)) e1 with
       | Some e2 =>
           Ok (pool_base_of p)
              {| eng := e2;
                 heap := <[fresh_addr (heap w) := new_pool_data]> (heap w);
                 trace := trace w ++ [EvNew (fresh_addr (heap w))] |}
       | None => Undefined
       end.

End Vocabulary.

(** What a run threw, and what it returned. *)
Definition thrown {W A} (o : outcome W A) : option exn :=
  match o with Throw e _ => Some e | _ => None end.

Definition returned {W A} (o : outcome W A) : option A :=
  match o with Ok a _ => Some a | _ => None end.

(** ** Sample worlds on the reference engine *)

(** The pool at 4096 is open on "/mnt/pmem/a"; its user-data record, at 7,
    has been initialized and holds three cleanup actions registered in the
    order 3, 1, 2. *)
Definition world_initialized : world Ref.state :=
  {| eng := Ref.with_pools {[ 4096 := ("/mnt/pmem/a", 7) ]} Ref.boot;
     heap := {[ 7 := {| initialized := true; cleanup := [3; 1; 2]%nat |} ]};
     trace := [] |}.

(** The same pool with the same registered actions, never initialized. *)
Definition world_uninitialized : world Ref.state :=
  {| eng := Ref.with_pools {[ 4096 := ("/mnt/pmem/a", 7) ]} Ref.boot;
     heap := {[ 7 := {| initialized := false; cleanup := [3; 1; 2]%nat |} ]};
     trace := [] |}.

Definition handle_4096 : pool_base := pool_base_of 4096.

(** The pool at 4096 as the C API leaves it after [pmemobj_open]: open, with
    nothing in its user-data slot. *)
Definition world_adopted : world Ref.state :=
  {| eng := Ref.with_pools {[ 4096 := ("/mnt/pmem/a", nullptr) ]} Ref.boot;
     heap := ∅;
     trace := [] |}.

(** [Ref.world0] after [open] of "/mnt/pmem/a": the pool is mapped at 4096
    and its fresh record is at 1. *)
Definition world_opened : world Ref.state :=
  {| eng := Ref.with_pools {[ 4096 := ("/mnt/pmem/a", 1) ]} Ref.boot;
     heap := {[ 1 := new_pool_data ]};
     trace := [EvNew 1] |}.

(** [Ref.world0] after [create] of "/mnt/pmem/new" with layout "t1". *)
Definition world_created : world Ref.state :=
  {| eng := Ref.with_pools {[ 4096 := ("/mnt/pmem/new", 1) ]}
              (Ref.with_files
                 (<[ "/mnt/pmem/new" := Ref.mk_pool_file "t1" true ]>
                    (Ref.files Ref.boot))
                 Ref.boot);
     heap := {[ 1 := new_pool_data ]};
     trace := [EvNew 1] |}.

(** [Ref.world0] with no room left in the free store. *)
Definition world_exhausted : world Ref.state :=
  {| eng := Ref.with_store_exhausted true Ref.boot; heap := ∅; trace := [] |}.

(** [world_initialized] after [close] on [handle_4096]. *)
Definition world_closed : world Ref.state :=
  {| eng := Ref.with_pools ∅ Ref.boot;
     heap := ∅;
     trace := [EvCleanup 3%nat; EvCleanup 1%nat; EvCleanup 2%nat;
               EvDelete 7; EvClose 4096] |}.

(** ** How the header's functions run *)

Section Facts.
Context {E : Type} `{Engine E}.
Local Open Scope cpp_scope.

Lemma run_actions_trace (l : list action) (w : world E) :
  run_actions l w =
    Ok tt {| eng := eng w; heap := heap w; trace := trace w ++ (EvCleanup <$> l) |}.
Proof.
  revert w. induction l as [|a l IH]; intros w; simpl.
  - unfold pure. rewrite app_nil_r. by destruct w.
  - unfold bind, emit. rewrite IH. simpl. by rewrite <- app_assoc.
Qed.

(** [close], statement by statement. *)
Lemma close_unfold (this : pool_base) (w : world E) :
  close this w =
    if decide (pop this = nullptr) then Throw AlreadyClosed w
    else match pmemobj_get_user_data (pop this) (eng w) with
         | None => Undefined
         | Some ud =>
             if decide (ud = nullptr) then Undefined
             else match heap w !! ud with
                  | None => Undefined
                  | Some r =>
                      match pmemobj_close (pop this) (eng w) with
                      | None => Undefined
                      | Some e' =>
                          Ok pool_base_default
                             {| eng := e';
                                heap := delete ud (heap w);
                                trace := trace w
                                  ++ (if initialized r then EvCleanup <$> cleanup r else [])
                                  ++ [EvDelete ud; EvClose (pop this)] |}
                      end
                  end
         end.
Proof.
  unfold close. destruct (decide (pop this = nullptr)) as [|Hp]; [done|].
  unfold bind at 1. unfold query, call.
  destruct (pmemobj_get_user_data (pop this) (eng w)) as [ud|]; simpl; [|done].
  unfold bind at 1. unfold deref. simpl.
  destruct (decide (ud = nullptr)) as [|Hud]; [done|].
  destruct (heap w !! ud) as [r|] eqn:Hr; [|done].
  assert (Hstep : ∀ evs,
    (delete_pool_data ud ;;; call_ (pmemobj_close (pop this)) ;;;
     emit (EvClose (pop this)) ;;; pure {| pop := nullptr |})
      {| eng := eng w; heap := heap w; trace := trace w ++ evs |} =
    match pmemobj_close (pop this) (eng w) with
    | None => Undefined
    | Some e' =>
        Ok pool_base_default
           {| eng := e'; heap := delete ud (heap w);
              trace := trace w ++ evs ++ [EvDelete ud; EvClose (pop this)] |}
    end).
  { intros evs. unfold bind at 1. unfold delete_pool_data. simpl.
    rewrite decide_False by done. rewrite Hr.
    unfold bind at 1. unfold call_, call. simpl.
    destruct (pmemobj_close (pop this) (eng w)) as [e'|]; simpl; [|done].
    unfold bind, emit, pure, set_eng, pool_base_default. simpl.
    by rewrite <- !app_assoc. }
  unfold bind at 1. destruct (initialized r).
  - rewrite run_actions_trace. simpl. apply Hstep.
  - unfold pure at 1. specialize (Hstep []). rewrite app_nil_r in Hstep.
    simpl in Hstep. destruct w; apply Hstep.
Qed.

Lemma close_never_throws_when_nonnull (this : pool_base) (w : world E) :
  pop this ≠ nullptr → is_Throw (close this w) = false.
Proof.
  intros Hp. rewrite close_unfold. rewrite decide_False by done.
  repeat case_match; done.
Qed.

End Facts.

(** ** The reference engine meets the contract *)

Section RefFacts.
Import Ref.

Lemma ref_is_open_with_durable p md pd s :
  is_open p (with_durable md pd s) = is_open p s.
Proof. reflexivity. Qed.

Lemma ref_is_open_with_mem p m s : is_open p (with_mem m s) = is_open p s.
Proof. reflexivity. Qed.

Lemma ref_is_open_null s : is_open nullptr s = false.
Proof. reflexivity. Qed.

Lemma ref_attach_open path s :
  let '(p, s') := attach path s in p ≠ nullptr ∧ is_open p s' = true.
Proof.
  unfold attach, fresh_pool.
  set (used := ({[0]} ∪ set_map (λ p, p / page) (dom (pools s)) : gset N)).
  assert (Hk : fresh used ≠ 0).
  { intros Hk. apply (is_fresh used). rewrite Hk. set_solver. }
  assert (Hp : page * fresh used ≠ nullptr).
  { unfold page, nullptr. lia. }
  split; [done|].
  unfold is_open. simpl. rewrite lookup_insert_eq.
  apply andb_true_intro. split.
  - apply negb_true_iff, N.eqb_neq. done.
  - by apply bool_decide_eq_true_2.
Qed.

Lemma ref_open_contract : open_contract (E := state).
Proof.
  intros path layout e. simpl. unfold open.
  destruct (files e !! path) as [f|]; [|done].
  destruct (negb _); [done|].
  destruct (already_open path e); [done|].
  pose proof (ref_attach_open path e) as Ha.
  destruct (attach path e) as [p s']. tauto.
Qed.

Lemma ref_create_contract : create_contract (E := state).
Proof.
  intros path layout size mode e. simpl. unfold create.
  destruct (files e !! path) as [f|]; [done|].
  destruct (size <? PMEMOBJ_MIN_POOL)%N; [done|].
  destruct (N.land mode S_IWUSR =? 0)%N; [done|].
  match goal with |- context [attach path ?s] =>
    pose proof (ref_attach_open path s) as Ha; destruct (attach path s) as [p s'] end.
  tauto.
Qed.

Lemma ref_user_data_contract : user_data_contract (E := state).
Proof.
  intros p ud e Hopen. simpl in *. unfold set_user_data. rewrite Hopen.
  eexists. split; [reflexivity|].
  unfold is_open in Hopen. apply andb_prop in Hopen as [Hnz Hin].
  apply bool_decide_eq_true_1 in Hin as [[path old] Hlk].
  assert (Hopen' : is_open p
            (with_pools (alter (λ e0, (e0.1, ud)) p (pools e)) e) = true).
  { unfold is_open. simpl. rewrite Hnz. simpl.
    apply bool_decide_eq_true_2. rewrite lookup_alter_eq, Hlk. by eexists. }
  split; [done|].
  unfold get_user_data. rewrite Hopen'. simpl.
  by rewrite lookup_alter_eq, Hlk.
Qed.

Lemma ref_close_contract : close_contract (E := state).
Proof.
  intros p e Hopen. simpl in *. unfold close. rewrite Hopen.
  eexists. split; [reflexivity|].
  unfold is_open. simpl. rewrite lookup_delete_eq.
  apply andb_false_iff. right. apply bool_decide_eq_false_2. by intros [? ?].
Qed.

Lemma ref_durability_contract : durability_contract (E := state).
Proof.
  intros p e Hopen. simpl in *.
  unfold memcpy_persist, memset_persist, persist, flush, drain.
  repeat split; intros;
    repeat first [ rewrite ref_is_open_with_durable
                 | rewrite ref_is_open_with_mem
                 | rewrite Hopen
                 | progress simpl ];
    by eexists.
Qed.

Lemma ref_memcpy_persist_contract : memcpy_persist_contract (E := state).
Proof. intros p dest src len e Hopen. simpl in *. unfold memcpy_persist. by rewrite Hopen. Qed.

Lemma ref_memset_persist_contract : memset_persist_contract (E := state).
Proof. intros p dest c len e Hopen. simpl in *. unfold memset_persist. by rewrite Hopen. Qed.

Lemma ref_check_contract : check_contract (E := state).
Proof.
  intros path layout e. simpl. unfold check, exists_path.
  destruct (files e !! path) as [f|] eqn:Hf; simpl.
  - split.
    + destruct (negb _); simpl; [by left|]. destruct (file_consistent f); auto.
    + intros Hn. discriminate Hn.
  - split; [by left|done].
Qed.

Lemma ref_null_pool_contract : null_pool_contract (E := state).
Proof. intros e. repeat split. Qed.

End RefFacts.

(** ** The lifecycle of a handle: [close] *)

Section Lifecycle.
Context {E : Type} `{Engine E}.
Local Open Scope cpp_scope.

(** C1.  Let a handle hold a pool (its pointer is not null) whose user-data
    slot points at a live record [r] at [ud], and let the engine release the
    pool into state [e'].  Then [close] returns normally, and what it did is
    exactly: the cleanup actions of [r], each once, in registration order,
    if and only if [r] is initialized; then [delete] of the record; then
    [pmemobj_close]; and the handle is left without a pool.  So every cleanup
    action comes before the release in the trace, and none runs when the flag
    is not set. *)
Theorem close_cleans_up_then_releases
    (this : pool_base) (w : world E) (ud : ptr) (r : pool_data) (e' : E) :
  pop this ≠ nullptr →
  pmemobj_get_user_data (pop this) (eng w) = Some ud →
  ud ≠ nullptr →
  heap w !! ud = Some r →
  pmemobj_close (pop this) (eng w) = Some e' →
  close this w =
    Ok pool_base_default
       {| eng := e';
          heap := delete ud (heap w);
          trace := trace w
            ++ (if initialized r then EvCleanup <$> cleanup r else [])
            ++ [EvDelete ud; EvClose (pop this)] |}
  ∧ Unbound pool_base_default.
Proof.
  intros Hp Hget Hud Hr Hclose. split; [|reflexivity].
  rewrite close_unfold, Hget, Hr, Hclose.
  rewrite !decide_False by done. reflexivity.
Qed.

(** C2.  [close] on a handle without a pool, default-constructed or already
    closed, throws [std::logic_error("Pool already closed")] and leaves the
    world as it was.  Hence on a handle that holds a pool with its record
    attached, the first [close] returns normally and a second [close] on the
    same handle throws that error, with nothing deleted or released twice. *)
Theorem close_without_pool_is_already_closed :
  (∀ (this : pool_base) (w : world E),
      Unbound this → close this w = Throw AlreadyClosed w)
  ∧ (∀ w : world E, close pool_base_default w = Throw AlreadyClosed w)
  ∧ (∀ (this : pool_base) (w : world E) ud r e',
      pop this ≠ nullptr →
      pmemobj_get_user_data (pop this) (eng w) = Some ud →
      ud ≠ nullptr →
      heap w !! ud = Some r →
      pmemobj_close (pop this) (eng w) = Some e' →
      ∃ this' w', close this w = Ok this' w'
                  ∧ close this' w' = Throw AlreadyClosed w').
Proof.
  assert (Hnull : ∀ (this : pool_base) (w : world E),
             Unbound this → close this w = Throw AlreadyClosed w).
  { intros this w Hu. rewrite close_unfold. by rewrite decide_True. }
  split; [exact Hnull|]. split; [intros w; by apply Hnull|].
  intros this w ud r e' Hp Hget Hud Hr Hclose.
  eexists _, _. split.
  - rewrite close_unfold, Hget, Hr, Hclose.
    rewrite !decide_False by done. reflexivity.
  - by apply Hnull.
Qed.

(** C10.  A copy of a handle is the same pointer value, and [close] clears
    the pointer only in the handle it is called on.  So after [close] has
    returned normally on [this], a copy of [this] still holds that non-null
    pointer, and [close] on the copy does not throw: the logic error
    "Pool already closed" is not raised for it. *)
Theorem close_through_copy_is_not_detected
    (this this' : pool_base) (w w' : world E) :
  close this w = Ok this' w' →
  Unbound this'
  ∧ pop (copy this) = pop this
  ∧ ¬ Unbound (copy this)
  ∧ close (copy this) w' ≠ Throw AlreadyClosed w'
  ∧ is_Throw (close (copy this) w') = false.
Proof.
  intros Hclose.
  assert (Hp : pop this ≠ nullptr).
  { intros Hp. rewrite close_unfold, decide_True in Hclose by done. discriminate. }
  assert (Hthis' : this' = pool_base_default).
  { rewrite close_unfold, decide_False in Hclose by done.
    repeat case_match; congruence. }
  assert (Hnt : is_Throw (close (copy this) w') = false).
  { by apply close_never_throws_when_nonnull. }
  subst this'. repeat split; try done.
  intros Heq. rewrite Heq in Hnt. discriminate.
Qed.

End Lifecycle.

(** On the reference engine: the record at 7 is initialized, so its actions
    run in the order 3, 1, 2, then the record and the pool go. *)
Lemma close_cleans_up_then_releases_witness :
  ∃ w', close handle_4096 world_initialized = Ok pool_base_default w'
        ∧ trace w' = [EvCleanup 3%nat; EvCleanup 1%nat; EvCleanup 2%nat;
                      EvDelete 7; EvClose 4096]
        ∧ heap w' !! 7 = None
        ∧ pool_is_open 4096 (eng w') = false.
Proof.
  eexists. split.
  - apply (close_cleans_up_then_releases handle_4096 world_initialized 7
             {| initialized := true; cleanup := [3; 1; 2]%nat |}
             (Ref.with_pools ∅ Ref.boot)); vm_compute; first [ reflexivity | discriminate ].
  - vm_compute. repeat split.
Defined.

(** The same handle on the record that was never initialized: no cleanup
    action runs, the record and the pool still go. *)
Example close_uninitialized_runs_no_cleanup :
  ∃ w', close handle_4096 world_uninitialized = Ok pool_base_default w'
        ∧ trace w' = [EvDelete 7; EvClose 4096].
Proof. eexists. split; vm_compute; reflexivity. Qed.

Lemma close_without_pool_is_already_closed_witness :
  close pool_base_default Ref.world0 = Throw AlreadyClosed Ref.world0
  ∧ ∃ this' w', close handle_4096 world_initialized = Ok this' w'
                ∧ close this' w' = Throw AlreadyClosed w'.
Proof.
  destruct (close_without_pool_is_already_closed (E := Ref.state))
    as (_ & Hdefault & Htwice).
  split; [apply Hdefault|].
  apply (Htwice handle_4096 world_initialized 7
           {| initialized := true; cleanup := [3; 1; 2]%nat |}
           (Ref.with_pools ∅ Ref.boot));
    vm_compute; first [ reflexivity | discriminate ].
Defined.

Lemma close_through_copy_is_not_detected_witness :
  close handle_4096 world_initialized = Ok pool_base_default world_closed
  ∧ Unbound pool_base_default
  ∧ pop (copy handle_4096) = pop handle_4096
  ∧ ¬ Unbound (copy handle_4096)
  ∧ close (copy handle_4096) world_closed ≠ Throw AlreadyClosed world_closed
  ∧ is_Throw (close (copy handle_4096) world_closed) = false.
Proof.
  assert (Hfirst : close handle_4096 world_initialized
                   = Ok pool_base_default world_closed)
    by (vm_compute; reflexivity).
  split; [exact Hfirst|].
  exact (close_through_copy_is_not_detected _ _ _ _ Hfirst).
Defined.

(** The hypothesis on the user-data slot is needed: a handle built from
    a C-style pool handle, on a pool that no [open] or [create] of this
    header prepared, finds no record, and [close] reads through null. *)
Example close_without_record_is_undefined :
  Bound handle_4096 world_adopted
  ∧ close handle_4096 world_adopted = Undefined.
Proof.
  split.
  - split; [discriminate|]. vm_compute. reflexivity.
  - vm_compute. reflexivity.
Qed.

(** What the second [close] does on the reference engine: the pool behind
    the copy is gone, so the call has no defined behaviour. *)
Example close_through_copy_is_undefined :
  close (copy handle_4096) world_closed = Undefined.
Proof. vm_compute. reflexivity. Qed.

(** ** [check_pool], [open] and [create] *)

Section Opening.
Context {E : Type} `{Engine E}.
Local Open Scope cpp_scope.

Lemma check_pool_null (mode : string) (w : world E) :
  check_pool nullptr mode w = Throw (open_failure mode (eng w)) w.
Proof.
  unfold check_pool, open_failure. rewrite decide_True by done.
  unfold bind at 1. unfold read.
  destruct (decide (invalid_argument_errno (errno (eng w)))) as [Hin|Hout].
  - replace (_ || _ || _ || _) with true; [reflexivity|].
    symmetry. unfold invalid_argument_errno in Hin.
    rewrite !orb_true_iff, !Z.eqb_eq. tauto.
  - replace (_ || _ || _ || _) with false; [reflexivity|].
    symmetry. apply not_true_is_false. intros Hb. apply Hout.
    unfold invalid_argument_errno.
    rewrite !orb_true_iff, !Z.eqb_eq in Hb. tauto.
Qed.

Lemma check_pool_nonnull (p : ptr) (mode : string) (w : world E) :
  p ≠ nullptr → check_pool p mode w = Ok tt w.
Proof. intros Hp. unfold check_pool. by rewrite decide_False. Qed.

(** The common body of [open] and [create] after the engine has answered. *)
Lemma attach_user_data (mode : string) (p : ptr) (e1 : E) (w : world E) :
  user_data_contract →
  (p ≠ nullptr → pool_is_open p e1 = true) →
  opened_as mode (p, e1) w
    ((check_pool p mode ;;;
      ud <- new_detail_pool_data ;;
      call_ (pmemobj_set_user_data p ud) ;;;
      pure (pool_base_of p)) (set_eng e1 w)).
Proof.
  intros Hud Hopen. unfold opened_as.
  destruct (decide (p = nullptr)) as [->|Hp].
  - unfold bind at 1. by rewrite check_pool_null.
  - intros Hroom. unfold bind at 1. rewrite check_pool_nonnull by done.
    unfold bind at 1. unfold new_detail_pool_data. simpl. rewrite Hroom.
    set (ud := fresh_addr (heap w)).
    destruct (Hud p ud e1 (Hopen Hp)) as (e2 & Hset & Hopen2 & Hget).
    assert (Hfresh : ud ∉ ({[nullptr]} ∪ dom (heap w) : gset N))
      by (unfold ud, fresh_addr; apply is_fresh).
    eexists (pool_base_of p), _, ud, e2.
    split; [unfold bind, call_, call; simpl; rewrite Hset; reflexivity|].
    split; [reflexivity|]. split; [by split|]. split; [reflexivity|].
    split; [set_solver|]. split; [apply not_elem_of_dom; set_solver|]. done.
Qed.

Lemma open_opened_as (path layout : string) (w : world E) :
  open_contract → user_data_contract →
  opened_as "opening" (pmemobj_open path layout (eng w)) w (open path layout w).
Proof.
  intros Hopen Hud. specialize (Hopen path layout (eng w)).
  unfold open. unfold bind at 1. unfold call_total, call.
  destruct (pmemobj_open path layout (eng w)) as [p e1].
  by apply attach_user_data.
Qed.

Lemma create_opened_as (path layout : string) (size mode : N) (w : world E) :
  create_contract → user_data_contract →
  opened_as "creating" (pmemobj_create path layout size mode (eng w)) w
            (create path layout size mode w).
Proof.
  intros Hcreate Hud. specialize (Hcreate path layout size mode (eng w)).
  unfold create. unfold bind at 1. unfold call_total, call.
  destruct (pmemobj_create path layout size mode (eng w)) as [p e1].
  by apply attach_user_data.
Qed.

(** A null answer needs no contract: [check_pool] throws at once. *)
Lemma open_null (path layout : string) (e1 : E) (w : world E) :
  pmemobj_open path layout (eng w) = (nullptr, e1) →
  open path layout w = Throw (open_failure "opening" e1) (set_eng e1 w).
Proof.
  intros Hnull. unfold open. unfold bind at 1. unfold call_total, call.
  rewrite Hnull. unfold bind at 1. by rewrite check_pool_null.
Qed.

Lemma create_null (path layout : string) (size mode : N) (e1 : E) (w : world E) :
  pmemobj_create path layout size mode (eng w) = (nullptr, e1) →
  create path layout size mode w =
    Throw (open_failure "creating" e1) (set_eng e1 w).
Proof.
  intros Hnull. unfold create. unfold bind at 1. unfold call_total, call.
  rewrite Hnull. unfold bind at 1. by rewrite check_pool_null.
Qed.

(** The narrowing [pool<T>(pool_base)] copies the pointer, nothing else. *)
Lemma bind_pool_of (m : M E pool_base) (w : world E) :
  (pb <- m ;; pure (pool_of pb)) w = m w.
Proof. unfold bind, pure, pool_of, copy. by destruct (m w) as [[p] w'| |]. Qed.

(** C3.  When the engine's open or create call answers null, [check_pool]
    throws: [pool_invalid_argument] if [errno] is EINVAL, EFBIG, ENOENT or
    EEXIST, the generic [pool_error] otherwise; either way the exception
    carries the engine's diagnostic message.  When the call answers a pool
    (and the free store has room for the record), [open] and [create]
    allocate a fresh user-data record, store it in the pool's user-data slot
    and return a Bound handle: its pointer is the pool the engine answered,
    not null, and that pool is open.  [pool<T>::open] and [pool<T>::create]
    do the same. *)
Theorem open_create_failure_taxonomy (w : world E) :
  (∀ mode, check_pool nullptr mode w = Throw (open_failure mode (eng w)) w)
  ∧ (∀ path layout e1,
       pmemobj_open path layout (eng w) = (nullptr, e1) →
       open path layout w = Throw (open_failure "opening" e1) (set_eng e1 w))
  ∧ (∀ path layout size mode e1,
       pmemobj_create path layout size mode (eng w) = (nullptr, e1) →
       create path layout size mode w =
         Throw (open_failure "creating" e1) (set_eng e1 w))
  ∧ (open_contract → user_data_contract →
     ∀ path layout,
       opened_as "opening" (pmemobj_open path layout (eng w)) w
                 (open path layout w))
  ∧ (create_contract → user_data_contract →
     ∀ path layout size mode,
       opened_as "creating" (pmemobj_create path layout size mode (eng w)) w
                 (create path layout size mode w))
  ∧ (∀ path layout, pool_open path layout w = open path layout w)
  ∧ (∀ path layout size mode,
       pool_create path layout size mode w = create path layout size mode w).
Proof.
  split; [intros; apply check_pool_null|].
  split; [intros path layout e1 Hnull; by apply open_null|].
  split; [intros path layout size mode e1 Hnull; by apply create_null|].
  split; [intros Ho Hu path layout; by apply open_opened_as|].
  split; [intros Hc Hu path layout size mode; by apply create_opened_as|].
  split; intros; apply bind_pool_of.
Qed.

End Opening.

Lemma open_create_failure_taxonomy_witness :
  open "/mnt/pmem/none" "t1" Ref.world0 =
    Throw (open_failure "opening"
             (Ref.fail ENOENT "No such file or directory" Ref.boot))
          (set_eng (Ref.fail ENOENT "No such file or directory" Ref.boot)
                   Ref.world0)
  ∧ (∃ this w', open "/mnt/pmem/a" "t1" Ref.world0 = Ok this w'
                ∧ pop this = 4096 ∧ Bound this w')
  ∧ (∃ this w', create "/mnt/pmem/new" "t1" Ref.PMEMOBJ_MIN_POOL DEFAULT_MODE
                  Ref.world0 = Ok this w'
                ∧ pop this = 4096 ∧ Bound this w').
Proof.
  destruct (open_create_failure_taxonomy Ref.world0)
    as (_ & Hnull & _ & Hopen & Hcreate & _).
  split; [apply Hnull; vm_compute; reflexivity|]. split.
  - specialize (Hopen ref_open_contract ref_user_data_contract "/mnt/pmem/a" "t1").
    unfold opened_as in Hopen.
    destruct (pmemobj_open "/mnt/pmem/a" "t1" (eng Ref.world0))
      as [p e1] eqn:Hans.
    vm_compute in Hans. injection Hans as <- <-.
    destruct (decide (4096 = nullptr)) as [Hz|_]; [discriminate Hz|].
    destruct (Hopen eq_refl) as (this & w' & ud & e2 & Hres & Hpop & Hbound & _).
    exists this, w'. exact (conj Hres (conj Hpop Hbound)).
  - specialize (Hcreate ref_create_contract ref_user_data_contract
                  "/mnt/pmem/new" "t1" Ref.PMEMOBJ_MIN_POOL DEFAULT_MODE).
    unfold opened_as in Hcreate.
    destruct (pmemobj_create "/mnt/pmem/new" "t1" Ref.PMEMOBJ_MIN_POOL
                DEFAULT_MODE (eng Ref.world0)) as [p e1] eqn:Hans.
    vm_compute in Hans. injection Hans as <- <-.
    destruct (decide (4096 = nullptr)) as [Hz|_]; [discriminate Hz|].
    destruct (Hcreate eq_refl) as (this & w' & ud & e2 & Hres & Hpop & Hbound & _).
    exists this, w'. exact (conj Hres (conj Hpop Hbound)).
Defined.

(** The four kinds of answer on the reference engine. *)
Example open_missing_file_is_invalid_argument :
  thrown (open "/mnt/pmem/none" "t1" Ref.world0) =
    Some {| exn_class_of := pool_invalid_argument;
            what := "Failed opening pool";
            diagnostic := Some "No such file or directory" |}.
Proof. vm_compute. reflexivity. Qed.

Example open_busy_pool_is_pool_error :
  thrown (open "/mnt/pmem/a" "t1" world_initialized) =
    Some {| exn_class_of := pool_error;
            what := "Failed opening pool";
            diagnostic := Some "Resource temporarily unavailable" |}.
Proof. vm_compute. reflexivity. Qed.

Example create_existing_file_is_invalid_argument :
  thrown (create "/mnt/pmem/a" "t1" Ref.PMEMOBJ_MIN_POOL DEFAULT_MODE Ref.world0) =
    Some {| exn_class_of := pool_invalid_argument;
            what := "Failed creating pool";
            diagnostic := Some "File exists" |}.
Proof. vm_compute. reflexivity. Qed.

Example create_without_permission_is_pool_error :
  thrown (create "/mnt/pmem/new" "t1" Ref.PMEMOBJ_MIN_POOL 0 Ref.world0) =
    Some {| exn_class_of := pool_error;
            what := "Failed creating pool";
            diagnostic := Some "Permission denied" |}.
Proof. vm_compute. reflexivity. Qed.

Example open_existing_pool_binds :
  ∃ w', open "/mnt/pmem/a" "t1" Ref.world0 = Ok handle_4096 w'
        ∧ pmemobj_get_user_data 4096 (eng w') = Some 1
        ∧ heap w' !! 1 = Some new_pool_data
        ∧ trace w' = [EvNew 1].
Proof. eexists. split; [vm_compute; reflexivity|]. vm_compute. repeat split. Qed.

(** ** [defrag] *)

Section Defrag.
Context {E : Type} `{Engine E}.
Local Open Scope cpp_scope.

(** C4.  Let the engine's relocation pass answer a status and leave result
    counts.  If the status is zero, [defrag] returns those counts; if it is
    not zero, [defrag] throws [defrag_error] whose result member is those same
    counts, with the engine's diagnostic message.  The counts the engine
    produced reach the caller in both outcomes. *)
Theorem defrag_reports_result_in_both_outcomes
    (this : pool_base) (ptrv : list N) (oidcnt : N) (w : world E)
    (status : Z) (result : pobj_defrag_result) (e' : E) :
  pmemobj_defrag (pop this) ptrv oidcnt (eng w) = Some (status, result, e') →
  (status = 0%Z → defrag this ptrv oidcnt w = Ok result (set_eng e' w))
  ∧ (status ≠ 0%Z →
     defrag this ptrv oidcnt w =
       Throw {| exn_class_of := defrag_error result;
                what := "Defragmentation failed";
                diagnostic := Some (pmemobj_errormsg e') |}
             (set_eng e' w)).
Proof.
  intros Hcall.
  assert (Hrun : defrag this ptrv oidcnt w =
            (if decide (status ≠ 0%Z) then
               e <- with_pmemobj_errormsg
                      (raise_of (defrag_error result) "Defragmentation failed") ;;
               throw e
             else pure result) (set_eng e' w)).
  { unfold defrag, bind at 1, call. by rewrite Hcall. }
  rewrite Hrun. split; intros Hs.
  - destruct (decide (status ≠ 0%Z)); [contradiction|reflexivity].
  - destruct (decide (status ≠ 0%Z)); [reflexivity|contradiction].
Qed.

End Defrag.

(** On the reference engine the third reference is null: the pass stops
    there with two references processed and one of them relocated, and the
    exception carries these counts. *)
Lemma defrag_reports_result_in_both_outcomes_witness :
  ∃ w', defrag handle_4096 [2; 3; 0; 4] 4 world_initialized =
          Throw {| exn_class_of := defrag_error {| total := 2; relocated := 1 |};
                   what := "Defragmentation failed";
                   diagnostic := Some "relocation failed" |} w'.
Proof.
  eexists.
  refine (proj2 (defrag_reports_result_in_both_outcomes
                   handle_4096 [2; 3; 0; 4] 4 world_initialized
                   (-1)%Z {| total := 2; relocated := 1 |}
                   (Ref.fail EINVAL "relocation failed" (eng world_initialized))
                   _) _).
  - vm_compute. reflexivity.
  - discriminate.
Defined.

Example defrag_success_returns_counts :
  returned (defrag handle_4096 [2; 3; 5; 4] 4 world_initialized) =
    Some {| total := 4; relocated := 2 |}.
Proof. vm_compute. reflexivity. Qed.

(** ** [pool<T>::root] *)

Section Root.
Context {E : Type} `{Engine E}.
Variable sizeof_T : N.
Local Open Scope cpp_scope.

(** C5.  [root] throws exactly when the handle holds no pool, and what it
    throws then is [pool_error("Invalid pool handle")], with nothing changed.
    When the handle holds a pool, [root] does not throw, and it returns the
    reference built from what [pmemobj_root] answers for that pool and the
    size [sizeof(T)]. *)
Theorem root_throws_iff_unbound (this : pool_base) (w : world E) :
  (Unbound this → root sizeof_T this w = Throw InvalidPoolHandle w)
  ∧ (is_Throw (root sizeof_T this w) = true ↔ Unbound this)
  ∧ (∀ oid e',
       ¬ Unbound this →
       pmemobj_root (pop this) sizeof_T (eng w) = Some (oid, e') →
       root sizeof_T this w = Ok (mk_persistent_ptr oid) (set_eng e' w))
  ∧ get_root sizeof_T this w = root sizeof_T this w.
Proof.
  unfold Unbound, get_root, root.
  destruct (decide (pop this = nullptr)) as [Hp|Hp].
  - repeat split; try done.
  - repeat split; try done.
    + unfold bind, call. repeat case_match; simpl; discriminate.
    + intros oid e' _ Hroot. unfold bind, call. by rewrite Hroot.
Qed.

End Root.

Lemma root_throws_iff_unbound_witness :
  root 24 pool_base_default Ref.world0 = Throw InvalidPoolHandle Ref.world0
  ∧ root 24 handle_4096 world_initialized =
      Ok (mk_persistent_ptr (mkPMEMoid 4096 64)) world_initialized.
Proof.
  split.
  - exact (proj1 (root_throws_iff_unbound 24 pool_base_default Ref.world0) eq_refl).
  - destruct (root_throws_iff_unbound 24 handle_4096 world_initialized)
      as (_ & _ & Hbound & _).
    rewrite (Hbound (mkPMEMoid 4096 64) (eng world_initialized)).
    + reflexivity.
    + discriminate.
    + vm_compute. reflexivity.
Defined.

(** ** The durability calls *)

Section Durability.
Context {E : Type} `{Engine E}.
Local Open Scope cpp_scope.

Lemma call_never_throws {A} (f : E → option (A * E)) (w : world E) :
  is_Throw (call f w) = false.
Proof. unfold call. by repeat case_match. Qed.

Lemma call_defined {A} (f : E → option (A * E)) (w : world E) :
  is_Some (f (eng w)) → ∃ a w', call f w = Ok a w'.
Proof. intros [[a e'] Hf]. unfold call. rewrite Hf. by eexists _, _. Qed.

Lemma call__defined (f : E → option E) (w : world E) :
  is_Some (f (eng w)) → ∃ w', call_ f w = Ok tt w'.
Proof. intros [e' Hf]. unfold call_, call. rewrite Hf. by eexists. Qed.

Lemma call__undefined (f : E → option E) (w : world E) :
  f (eng w) = None → call_ f w = Undefined.
Proof. intros Hf. unfold call_, call. by rewrite Hf. Qed.

(** C7.  [persist], [flush], [drain], [memcpy_persist] and [memset_persist]
    have no error path: on no handle and for no argument do they throw.  On
    a Bound handle, where the engine's calls are defined for every argument,
    each of them returns normally. *)
Theorem durability_calls_never_fail (this : pool_base) (w : world E) :
  ((∀ addr len, is_Throw (persist this addr len w) = false)
   ∧ (∀ addr len, is_Throw (flush this addr len w) = false)
   ∧ is_Throw (drain this w) = false
   ∧ (∀ dest src len, is_Throw (memcpy_persist this dest src len w) = false)
   ∧ (∀ dest c len, is_Throw (memset_persist this dest c len w) = false))
  ∧ (durability_contract → Bound this w →
     (∀ addr len, ∃ w', persist this addr len w = Ok tt w')
     ∧ (∀ addr len, ∃ w', flush this addr len w = Ok tt w')
     ∧ (∃ w', drain this w = Ok tt w')
     ∧ (∀ dest src len, ∃ r w', memcpy_persist this dest src len w = Ok r w')
     ∧ (∀ dest c len, ∃ r w', memset_persist this dest c len w = Ok r w')).
Proof.
  split.
  - unfold persist, flush, drain, memcpy_persist, memset_persist, call_.
    repeat split; intros; apply call_never_throws.
  - intros Hd [_ Hopen].
    destruct (Hd _ _ Hopen) as (Hp & Hf & Hdr & Hcp & Hst).
    unfold persist, flush, drain, memcpy_persist, memset_persist.
    repeat split; intros; first [ by apply call__defined | by apply call_defined ].
Qed.

(** C9.  On a Bound handle, [memcpy_persist(dest, src, len)] runs exactly as
    the plain copy followed by [persist(dest, len)] and answering [dest], and
    [memset_persist(dest, c, len)] as the plain fill followed by
    [persist(dest, len)] and answering [dest]: same outcome, same world.
    Whenever either returns, it returns [dest]. *)
Theorem memcpy_memset_persist_are_copy_then_persist
    (this : pool_base) (w : world E) :
  memcpy_persist_contract → memset_persist_contract → Bound this w →
  (∀ dest src len,
     memcpy_persist this dest src len w =
       (call_ (memcpy dest src len) ;;; persist this dest len ;;; pure dest) w)
  ∧ (∀ dest c len,
       memset_persist this dest c len w =
         (call_ (memset dest c len) ;;; persist this dest len ;;; pure dest) w)
  ∧ (∀ dest src len r w',
       memcpy_persist this dest src len w = Ok r w' → r = dest)
  ∧ (∀ dest c len r w',
       memset_persist this dest c len w = Ok r w' → r = dest).
Proof.
  intros Hcpy Hset [_ Hopen].
  assert (Hc : ∀ dest src len,
     memcpy_persist this dest src len w =
       (call_ (memcpy dest src len) ;;; persist this dest len ;;; pure dest) w).
  { intros dest src len.
    unfold memcpy_persist, persist, bind, call_, call, pure.
    rewrite (Hcpy _ dest src len _ Hopen).
    destruct (memcpy dest src len (eng w)) as [e1|]; simpl; [|done].
    destruct (pmemobj_persist (pop this) dest len e1) as [e2|]; simpl; done. }
  assert (Hs : ∀ dest c len,
     memset_persist this dest c len w =
       (call_ (memset dest c len) ;;; persist this dest len ;;; pure dest) w).
  { intros dest c len.
    unfold memset_persist, persist, bind, call_, call, pure.
    rewrite (Hset _ dest c len _ Hopen).
    destruct (memset dest c len (eng w)) as [e1|]; simpl; [|done].
    destruct (pmemobj_persist (pop this) dest len e1) as [e2|]; simpl; done. }
  repeat split; [exact Hc|exact Hs| |].
  - intros dest src len r w' Hrun. rewrite Hc in Hrun.
    unfold bind, call_, call, persist, pure in Hrun.
    repeat case_match; simplify_eq/=; done.
  - intros dest c len r w' Hrun. rewrite Hs in Hrun.
    unfold bind, call_, call, persist, pure in Hrun.
    repeat case_match; simplify_eq/=; done.
Qed.

End Durability.

(** ** [check] *)

Section Check.
Context {E : Type} `{Engine E}.

(** C8.  [pool_base::check] and [pool<T>::check] never throw: for every path
    and layout they return, and both return what [pmemobj_check] answers,
    which by the engine's contract is one of -1, 1 and 0, and is -1 for a
    path that does not exist. *)
Theorem check_is_a_tristate_probe (path layout : string) (w : world E) :
  ∃ r w',
    check path layout w = Ok r w'
    ∧ pool_check path layout w = Ok r w'
    ∧ r = (pmemobj_check path layout (eng w)).1
    ∧ (check_contract →
       (r = (-1)%Z ∨ r = 1%Z ∨ r = 0%Z)
       ∧ (path_exists path (eng w) = false → r = (-1)%Z)).
Proof.
  unfold pool_check, check, call_total, call.
  destruct (pmemobj_check path layout (eng w)) as [r e'] eqn:Hr.
  exists r, (set_eng e' w).
  split; [reflexivity|]. split; [reflexivity|]. split; [reflexivity|].
  intros Hc. destruct (Hc path layout (eng w)) as [Hrange Hmissing].
  rewrite Hr in Hrange, Hmissing. by split.
Qed.

End Check.

Lemma bound_handle_4096 : Bound handle_4096 world_initialized.
Proof. split; [discriminate|vm_compute; reflexivity]. Qed.

Lemma durability_calls_never_fail_witness :
  (∃ w', persist handle_4096 100 3 world_initialized = Ok tt w')
  ∧ (∃ w', flush handle_4096 100 3 world_initialized = Ok tt w')
  ∧ (∃ w', drain handle_4096 world_initialized = Ok tt w')
  ∧ (∃ r w', memcpy_persist handle_4096 200 100 3 world_initialized = Ok r w')
  ∧ (∃ r w', memset_persist handle_4096 200 255 3 world_initialized = Ok r w').
Proof.
  destruct (proj2 (durability_calls_never_fail handle_4096 world_initialized)
              ref_durability_contract bound_handle_4096)
    as (Hp & Hf & Hd & Hc & Hs).
  exact (conj (Hp _ _) (conj (Hf _ _) (conj Hd (conj (Hc _ _ _) (Hs _ _ _))))).
Defined.

Lemma memcpy_memset_persist_are_copy_then_persist_witness :
  memcpy_persist handle_4096 200 100 3 world_initialized =
    bind (call_ (memcpy 200 100 3))
         (λ _, bind (persist handle_4096 200 3) (λ _, pure 200)) world_initialized
  ∧ memset_persist handle_4096 200 255 3 world_initialized =
      bind (call_ (memset 200 255 3))
           (λ _, bind (persist handle_4096 200 3) (λ _, pure 200)) world_initialized.
Proof.
  destruct (memcpy_memset_persist_are_copy_then_persist
              handle_4096 world_initialized
              ref_memcpy_persist_contract ref_memset_persist_contract
              bound_handle_4096) as (Hc & Hs & _).
  exact (conj (Hc _ _ _) (Hs _ _ _)).
Defined.

(** On the reference engine the three bytes 7, 8, 9 at 100 arrive at 200,
    in memory and on the medium, and the call answers 200. *)
Example memcpy_persist_copies_and_persists :
  ∃ w', memcpy_persist handle_4096 200 100 3 world_initialized = Ok 200 w'
        ∧ Ref.load (Ref.mem (eng w')) <$> [200; 201; 202] = [7; 8; 9]%Z
        ∧ Ref.load (Ref.media (eng w')) <$> [200; 201; 202] = [7; 8; 9]%Z
        ∧ Ref.pending (eng w') = [].
Proof. eexists. split; [vm_compute; reflexivity|]. vm_compute. repeat split. Qed.

Example memset_persist_fills_and_persists :
  ∃ w', memset_persist handle_4096 200 255 3 world_initialized = Ok 200 w'
        ∧ Ref.load (Ref.media (eng w')) <$> [200; 201; 202; 203] = [255; 255; 255; 0]%Z.
Proof. eexists. split; [vm_compute; reflexivity|]. vm_compute. repeat split. Qed.

Lemma check_is_a_tristate_probe_witness :
  ∃ w', check "/mnt/pmem/none" "t1" Ref.world0 = Ok (-1)%Z w'
        ∧ pool_check "/mnt/pmem/none" "t1" Ref.world0 = Ok (-1)%Z w'.
Proof.
  destruct (check_is_a_tristate_probe "/mnt/pmem/none" "t1" Ref.world0)
    as (r & w' & Hcheck & Hpool & _ & Hcontract).
  destruct (Hcontract ref_check_contract) as [_ Hmissing].
  rewrite (Hmissing eq_refl) in Hcheck, Hpool.
  exists w'. exact (conj Hcheck Hpool).
Defined.

Example check_missing_path : returned (check "/mnt/pmem/none" "t1" Ref.world0) = Some (-1)%Z.
Proof. vm_compute. reflexivity. Qed.

Example check_consistent_pool : returned (check "/mnt/pmem/a" "t1" Ref.world0) = Some 1%Z.
Proof. vm_compute. reflexivity. Qed.

Example check_damaged_pool : returned (check "/mnt/pmem/bad" "t1" Ref.world0) = Some 0%Z.
Proof. vm_compute. reflexivity. Qed.

(** ** Calls on a handle without a pool *)

Section UnboundCalls.
Context {E : Type} `{Engine E}.
Context {V : Type}.
Variable ctl_get_detail : ptr → string → M E V.
Variable ctl_set_detail : ptr → string → V → M E V.
Variable ctl_exec_detail : ptr → string → V → M E V.
Local Open Scope cpp_scope.

(** C6, as the code has it.  On an Unbound handle [persist], [flush],
    [drain] and [defrag] make no check of their own: they hand the null
    pointer to the engine, and where the engine gives a null pool no meaning
    they have no defined behaviour, so they do not return normally and throw
    nothing.  [ctl_get], [ctl_set] and [ctl_exec] of [pool<T>] on an Unbound
    handle are the global-scope operations of the same name and argument:
    they succeed whenever those do. *)
Theorem unbound_calls_pass_null_to_engine (this : pool_base) (w : world E) :
  Unbound this →
  ((∀ addr len, persist this addr len w = call_ (pmemobj_persist nullptr addr len) w)
   ∧ (∀ addr len, flush this addr len w = call_ (pmemobj_flush nullptr addr len) w)
   ∧ drain this w = call_ (pmemobj_drain nullptr) w)
  ∧ (null_pool_contract →
     (∀ addr len, persist this addr len w = Undefined)
     ∧ (∀ addr len, flush this addr len w = Undefined)
     ∧ drain this w = Undefined
     ∧ (∀ ptrv oidcnt, defrag this ptrv oidcnt w = Undefined))
  ∧ (∀ name, pool_ctl_get ctl_get_detail this name w = ctl_get ctl_get_detail name w)
  ∧ (∀ name arg,
       pool_ctl_set ctl_set_detail this name arg w = ctl_set ctl_set_detail name arg w)
  ∧ (∀ name arg,
       pool_ctl_exec ctl_exec_detail this name arg w = ctl_exec ctl_exec_detail name arg w).
Proof.
  unfold Unbound. intros Hnull.
  unfold persist, flush, drain, defrag, pool_ctl_get, pool_ctl_set, pool_ctl_exec,
    ctl_get, ctl_set, ctl_exec.
  rewrite Hnull. split; [done|]. split; [|done].
  intros Hc. destruct (Hc (eng w)) as (Hp & Hf & Hd & Hdf).
  repeat split; intros.
  - by apply call__undefined.
  - by apply call__undefined.
  - by apply call__undefined.
  - unfold bind, call. by rewrite Hdf.
Qed.

End UnboundCalls.

(** C6 as stated fails: on the reference engine the default-constructed
    handle reads and writes the process-wide entry point [prefault.at_open],
    and both calls return normally. *)
Lemma unbound_ctl_get_succeeds :
  Unbound pool_base_default
  ∧ pool_ctl_get Ref.ctl_get_detail pool_base_default "prefault.at_open" Ref.world0
    = Ok 0%Z Ref.world0
  ∧ is_Ok (pool_ctl_set Ref.ctl_set_detail pool_base_default "prefault.at_open" 1%Z
             Ref.world0) = true.
Proof. repeat split. Qed.

Lemma unbound_calls_pass_null_to_engine_witness :
  persist pool_base_default 100 3 Ref.world0 = Undefined
  ∧ defrag pool_base_default [2; 3] 2 Ref.world0 = Undefined
  ∧ pool_ctl_get Ref.ctl_get_detail pool_base_default "prefault.at_open" Ref.world0
    = ctl_get Ref.ctl_get_detail "prefault.at_open" Ref.world0.
Proof.
  destruct (unbound_calls_pass_null_to_engine
              Ref.ctl_get_detail Ref.ctl_set_detail Ref.ctl_exec_detail
              pool_base_default Ref.world0 eq_refl)
    as (_ & Hundef & Hget & _).
  destruct (Hundef ref_null_pool_contract) as (Hp & _ & _ & Hd).
  exact (conj (Hp _ _) (conj (Hd _ _) (Hget _))).
Defined.

(** ** Sessions: how [open], [create], [close] and [root] compose *)

Section Sessions.
Context {E : Type} `{Engine E}.
Variable sizeof_T : N.
Local Open Scope cpp_scope.

Lemma attach_unfold (mode : string) (p : ptr) (e1 : E) (w : world E) :
  (check_pool p mode ;;;
   ud <- new_detail_pool_data ;;
   call_ (pmemobj_set_user_data p ud) ;;;
   pure (pool_base_of p)) (set_eng e1 w) = attached_outcome mode p e1 w.
Proof.
  unfold attached_outcome. destruct (decide (p = nullptr)) as [->|Hp].
  - unfold bind at 1. by rewrite check_pool_null.
  - unfold bind at 1. rewrite check_pool_nonnull by done.
    unfold bind at 1. unfold new_detail_pool_data. simpl.
    destruct (free_store_exhausted e1); [reflexivity|].
    unfold bind, call_, call. simpl.
    by destruct (pmemobj_set_user_data p (fresh_addr (heap w)) e1).
Qed.

Lemma open_unfold (path layout : string) (w : world E) :
  open path layout w =
    attached_outcome "opening" (pmemobj_open path layout (eng w)).1
                     (pmemobj_open path layout (eng w)).2 w.
Proof.
  unfold open. unfold bind at 1. unfold call_total, call.
  destruct (pmemobj_open path layout (eng w)) as [p e1]. apply attach_unfold.
Qed.

Lemma create_unfold (path layout : string) (size mode : N) (w : world E) :
  create path layout size mode w =
    attached_outcome "creating" (pmemobj_create path layout size mode (eng w)).1
                     (pmemobj_create path layout size mode (eng w)).2 w.
Proof.
  unfold create. unfold bind at 1. unfold call_total, call.
  destruct (pmemobj_create path layout size mode (eng w)) as [p e1].
  apply attach_unfold.
Qed.

Lemma fresh_addr_free (hp : gmap N pool_data) :
  fresh_addr hp ≠ nullptr ∧ hp !! fresh_addr hp = None.
Proof.
  assert (Hfresh : fresh_addr hp ∉ ({[nullptr]} ∪ dom hp : gset N))
    by (unfold fresh_addr; apply is_fresh).
  split; [set_solver|]. apply not_elem_of_dom. set_solver.
Qed.


(** When it returns. *)
Lemma attached_ok_inv mode p e1 w this w' :
  attached_outcome mode p e1 w = Ok this w' →
  this = pool_base_of p ∧ p ≠ nullptr
  ∧ ∃ ud, ud ≠ nullptr ∧ heap w !! ud = None
          ∧ pmemobj_set_user_data p ud e1 = Some (eng w')
          ∧ heap w' = <[ud := new_pool_data]> (heap w)
          ∧ trace w' = (trace w ++ [EvNew ud])%list.
Proof.
  unfold attached_outcome. destruct (decide (p = nullptr)); [done|].
  destruct (free_store_exhausted e1); [done|].
  destruct (pmemobj_set_user_data _ _ _) as [e2|] eqn:Hset; [|done].
  intros [= <- <-]. split; [done|]. split; [done|].
  exists (fresh_addr (heap w)).
  destruct (fresh_addr_free (heap w)) as [Hnz Hfree]. done.
Qed.

(** The close of a handle that [open] or [create] has just returned. *)
Lemma attached_then_close mode p e1 w this w1 :
  (p ≠ nullptr → pool_is_open p e1 = true) →
  user_data_contract → close_contract →
  attached_outcome mode p e1 w = Ok this w1 →
  ∃ ud w2,
    close this w1 = Ok pool_base_default w2
    ∧ trace w2 = (trace w ++ [EvNew ud; EvDelete ud; EvClose (pop this)])%list
    ∧ heap w2 = heap w
    ∧ pool_is_open (pop this) (eng w2) = false.
Proof.
  intros Hopen Hu Hc Hok.
  destruct (attached_ok_inv _ _ _ _ _ _ Hok)
    as (-> & Hp & ud & Hud & Hfree & Hset & Hheap & Htrace).
  destruct (Hu p ud e1 (Hopen Hp)) as (e2 & Hset' & Hopen2 & Hget).
  rewrite Hset in Hset'. injection Hset' as He2.
  destruct (Hc p e2 Hopen2) as (e3 & Hclose & Hgone).
  exists ud. eexists. rewrite close_unfold. simpl.
  rewrite decide_False by done. rewrite He2, Hget.
  rewrite decide_False by done.
  rewrite Hheap, lookup_insert_eq, Hclose. split; [reflexivity|]. simpl.
  rewrite Htrace, <- app_assoc. split; [reflexivity|].
  split; [by apply delete_insert_id|done].
Qed.

(** X1.  [open] then [close]: under the engine's contract for open pools, a
    handle that [open] returned can be closed.  The close returns normally,
    runs no cleanup action, deletes the very record [open] allocated, leaves
    the records as they were before [open], and the pool is no longer open. *)
Theorem open_close_round_trip
    (path layout : string) (w w1 : world E) (this : pool_base) :
  open_contract → user_data_contract → close_contract →
  open path layout w = Ok this w1 →
  ∃ ud w2,
    close this w1 = Ok pool_base_default w2
    ∧ trace w2 = (trace w ++ [EvNew ud; EvDelete ud; EvClose (pop this)])%list
    ∧ heap w2 = heap w
    ∧ pool_is_open (pop this) (eng w2) = false.
Proof.
  intros Ho Hu Hc Hopen. rewrite open_unfold in Hopen.
  specialize (Ho path layout (eng w)).
  destruct (pmemobj_open path layout (eng w)) as [p e1]. simpl in Hopen.
  by apply (attached_then_close "opening" p e1 w).
Qed.

(** X2.  [create] then [close]: the same for a handle that [create]
    returned. *)
Theorem create_close_round_trip
    (path layout : string) (size mode : N) (w w1 : world E) (this : pool_base) :
  create_contract → user_data_contract → close_contract →
  create path layout size mode w = Ok this w1 →
  ∃ ud w2,
    close this w1 = Ok pool_base_default w2
    ∧ trace w2 = (trace w ++ [EvNew ud; EvDelete ud; EvClose (pop this)])%list
    ∧ heap w2 = heap w
    ∧ pool_is_open (pop this) (eng w2) = false.
Proof.
  intros Ho Hu Hc Hcreate. rewrite create_unfold in Hcreate.
  specialize (Ho path layout size mode (eng w)).
  destruct (pmemobj_create path layout size mode (eng w)) as [p e1].
  simpl in Hcreate. by apply (attached_then_close "creating" p e1 w).
Qed.


(** X4.  A handle that [open] or [create] returns is never null: [handle()]
    is the pointer the engine answered, and exactly one record was allocated
    for it, freshly constructed, at a non-null address that held no record,
    and handed to [pmemobj_set_user_data]. *)
Theorem opened_handle_is_engine_pool (w : world E) :
  (∀ path layout this w',
     open path layout w = Ok this w' →
     handle this = (pmemobj_open path layout (eng w)).1
     ∧ handle this ≠ nullptr
     ∧ ∃ ud, ud ≠ nullptr ∧ heap w !! ud = None
             ∧ pmemobj_set_user_data (handle this) ud
                 (pmemobj_open path layout (eng w)).2 = Some (eng w')
             ∧ heap w' = <[ud := new_pool_data]> (heap w)
             ∧ trace w' = (trace w ++ [EvNew ud])%list)
  ∧ (∀ path layout size mode this w',
       create path layout size mode w = Ok this w' →
       handle this = (pmemobj_create path layout size mode (eng w)).1
       ∧ handle this ≠ nullptr
       ∧ ∃ ud, ud ≠ nullptr ∧ heap w !! ud = None
               ∧ pmemobj_set_user_data (handle this) ud
                   (pmemobj_create path layout size mode (eng w)).2 = Some (eng w')
               ∧ heap w' = <[ud := new_pool_data]> (heap w)
               ∧ trace w' = (trace w ++ [EvNew ud])%list).
Proof.
  split.
  - intros path layout this w' Hok. rewrite open_unfold in Hok.
    apply attached_ok_inv in Hok as (-> & Hp & Hrec). done.
  - intros path layout size mode this w' Hok. rewrite create_unfold in Hok.
    apply attached_ok_inv in Hok as (-> & Hp & Hrec). done.
Qed.


(** X8.  Use after close.  After [close] has returned, [root] on the closed
    handle throws "Invalid pool handle" and changes nothing; [root] on a
    copy taken before the close is not stopped by the null test: it does not
    throw and goes on to call [pmemobj_root] with the pointer of the closed
    pool. *)
Theorem root_after_close (this this' : pool_base) (w w' : world E) :
  close this w = Ok this' w' →
  root sizeof_T this' w' = Throw InvalidPoolHandle w'
  ∧ is_Throw (root sizeof_T (copy this) w') = false
  ∧ root sizeof_T (copy this) w' =
      (oid <- call (pmemobj_root (pop this) sizeof_T) ;;
       pure (mk_persistent_ptr oid)) w'.
Proof.
  intros Hclose.
  assert (Hp : pop this ≠ nullptr).
  { intros Hp. rewrite close_unfold, decide_True in Hclose by done. discriminate. }
  assert (Hthis' : this' = pool_base_default).
  { rewrite close_unfold, decide_False in Hclose by done.
    repeat case_match; congruence. }
  subst this'. split; [reflexivity|].
  unfold root, copy. simpl. rewrite decide_False by done.
  split; [|reflexivity].
  unfold bind, call. by repeat case_match.
Qed.

(** X9.  Every open gets a record of its own.  Two successive calls of
    [open] that both return have allocated two different records, both live
    afterwards and both freshly constructed. *)
Theorem successive_opens_get_distinct_records
    (path1 layout1 path2 layout2 : string)
    (this1 this2 : pool_base) (w w1 w2 : world E) :
  open path1 layout1 w = Ok this1 w1 →
  open path2 layout2 w1 = Ok this2 w2 →
  ∃ ud1 ud2,
    ud1 ≠ ud2
    ∧ trace w2 = (trace w ++ [EvNew ud1; EvNew ud2])%list
    ∧ heap w2 !! ud1 = Some new_pool_data
    ∧ heap w2 !! ud2 = Some new_pool_data.
Proof.
  intros Hopen1 Hopen2. rewrite open_unfold in Hopen1, Hopen2.
  apply attached_ok_inv in Hopen1
    as (_ & _ & ud1 & _ & _ & _ & Hheap1 & Htrace1).
  apply attached_ok_inv in Hopen2
    as (_ & _ & ud2 & _ & Hfree2 & _ & Hheap2 & Htrace2).
  exists ud1, ud2.
  assert (Hne : ud1 ≠ ud2).
  { intros ->. rewrite Hheap1, lookup_insert_eq in Hfree2. discriminate. }
  split; [done|]. split; [by rewrite Htrace2, Htrace1, <- app_assoc|].
  rewrite Hheap2, Hheap1. split.
  - rewrite lookup_insert_ne by done. apply lookup_insert_eq.
  - apply lookup_insert_eq.
Qed.

(** X10.  [root] right after [pool<T>::open] or [pool<T>::create]: on the
    handle either returns, the null test of [root] passes, so [root] does
    not throw and runs [pmemobj_root] on the pool just opened. *)
Theorem root_after_open_never_throws (w : world E) :
  (∀ path layout this w1,
     pool_open path layout w = Ok this w1 →
     is_Throw (root sizeof_T this w1) = false
     ∧ root sizeof_T this w1 =
         (oid <- call (pmemobj_root (pmemobj_open path layout (eng w)).1 sizeof_T) ;;
          pure (mk_persistent_ptr oid)) w1)
  ∧ (∀ path layout size mode this w1,
       pool_create path layout size mode w = Ok this w1 →
       is_Throw (root sizeof_T this w1) = false
       ∧ root sizeof_T this w1 =
           (oid <- call (pmemobj_root
                           (pmemobj_create path layout size mode (eng w)).1
                           sizeof_T) ;;
            pure (mk_persistent_ptr oid)) w1).
Proof.
  assert (Hroot : ∀ p w1, p ≠ nullptr →
            is_Throw (root sizeof_T (pool_base_of p) w1) = false
            ∧ root sizeof_T (pool_base_of p) w1 =
                (oid <- call (pmemobj_root p sizeof_T) ;;
                 pure (mk_persistent_ptr oid)) w1).
  { intros p w1 Hp. unfold root. simpl. rewrite decide_False by done.
    split; [|reflexivity]. unfold bind, call. by repeat case_match. }
  split.
  - intros path layout this w1 Hok.
    unfold pool_open in Hok. rewrite bind_pool_of, open_unfold in Hok.
    apply attached_ok_inv in Hok as (-> & Hp & _). by apply Hroot.
  - intros path layout size mode this w1 Hok.
    unfold pool_create in Hok. rewrite bind_pool_of, create_unfold in Hok.
    apply attached_ok_inv in Hok as (-> & Hp & _). by apply Hroot.
Qed.

End Sessions.

Lemma open_close_round_trip_witness :
  open "/mnt/pmem/a" "t1" Ref.world0 = Ok handle_4096 world_opened
  ∧ ∃ ud w2,
      close handle_4096 world_opened = Ok pool_base_default w2
      ∧ trace w2 = (trace Ref.world0
                      ++ [EvNew ud; EvDelete ud; EvClose (pop handle_4096)])%list
      ∧ heap w2 = heap Ref.world0
      ∧ pool_is_open (pop handle_4096) (eng w2) = false.
Proof.
  assert (Hopen : open "/mnt/pmem/a" "t1" Ref.world0 = Ok handle_4096 world_opened)
    by (vm_compute; reflexivity).
  split; [exact Hopen|].
  exact (open_close_round_trip "/mnt/pmem/a" "t1" Ref.world0 world_opened
           handle_4096 ref_open_contract ref_user_data_contract
           ref_close_contract Hopen).
Defined.

Lemma create_close_round_trip_witness :
  create "/mnt/pmem/new" "t1" Ref.PMEMOBJ_MIN_POOL DEFAULT_MODE Ref.world0
    = Ok handle_4096 world_created
  ∧ ∃ ud w2,
      close handle_4096 world_created = Ok pool_base_default w2
      ∧ trace w2 = (trace Ref.world0
                      ++ [EvNew ud; EvDelete ud; EvClose (pop handle_4096)])%list
      ∧ heap w2 = heap Ref.world0
      ∧ pool_is_open (pop handle_4096) (eng w2) = false.
Proof.
  assert (Hcreate :
    create "/mnt/pmem/new" "t1" Ref.PMEMOBJ_MIN_POOL DEFAULT_MODE Ref.world0
      = Ok handle_4096 world_created) by (vm_compute; reflexivity).
  split; [exact Hcreate|].
  exact (create_close_round_trip "/mnt/pmem/new" "t1" Ref.PMEMOBJ_MIN_POOL
           DEFAULT_MODE Ref.world0 world_created handle_4096
           ref_create_contract ref_user_data_contract ref_close_contract
           Hcreate).
Defined.


(** The two ways [open] fails, run on the reference engine: a missing file,
    and a pool the engine opened for which [new] found no room. *)
Example open_missing_file_allocates_nothing :
  ∃ e w', open "/mnt/pmem/none" "t1" Ref.world0 = Throw e w'
          ∧ exn_class_of e = pool_invalid_argument
          ∧ heap w' = ∅ ∧ trace w' = [].
Proof. eexists _, _. split; [vm_compute; reflexivity|]. repeat split. Qed.

Example open_without_room_leaves_pool_open :
  ∃ w', open "/mnt/pmem/a" "t1" world_exhausted = Throw BadAlloc w'
        ∧ heap w' = ∅
        ∧ Ref.pools (eng w') = {[ 4096 := ("/mnt/pmem/a", nullptr) ]}.
Proof.
  eexists. split; [vm_compute; reflexivity|]. split; vm_compute; reflexivity.
Qed.

Lemma opened_handle_is_engine_pool_witness :
  open "/mnt/pmem/a" "t1" Ref.world0 = Ok handle_4096 world_opened
  ∧ handle handle_4096 = (pmemobj_open "/mnt/pmem/a" "t1" (eng Ref.world0)).1
  ∧ handle handle_4096 ≠ nullptr.
Proof.
  assert (Hopen : open "/mnt/pmem/a" "t1" Ref.world0 = Ok handle_4096 world_opened)
    by (vm_compute; reflexivity).
  split; [exact Hopen|].
  destruct (proj1 (opened_handle_is_engine_pool Ref.world0) _ _ _ _ Hopen)
    as (Hhandle & Hnonnull & _).
  exact (conj Hhandle Hnonnull).
Defined.


Lemma root_after_close_witness :
  close handle_4096 world_initialized = Ok pool_base_default world_closed
  ∧ root 24 pool_base_default world_closed = Throw InvalidPoolHandle world_closed
  ∧ is_Throw (root 24 (copy handle_4096) world_closed) = false.
Proof.
  assert (Hclose : close handle_4096 world_initialized
                   = Ok pool_base_default world_closed)
    by (vm_compute; reflexivity).
  split; [exact Hclose|].
  destruct (root_after_close 24 _ _ _ _ Hclose) as (Hclosed & Hcopy & _).
  exact (conj Hclosed Hcopy).
Defined.

(** On the reference engine the stale copy reaches the engine with the
    pointer of a pool that is gone. *)
Example root_through_stale_copy_is_undefined :
  root 24 (copy handle_4096) world_closed = Undefined.
Proof. vm_compute. reflexivity. Qed.

Lemma successive_opens_get_distinct_records_witness :
  ∃ this2 w2,
    open "/mnt/pmem/a" "t1" Ref.world0 = Ok handle_4096 world_opened
    ∧ open "/mnt/pmem/bad" "t1" world_opened = Ok this2 w2
    ∧ ∃ ud1 ud2,
        ud1 ≠ ud2
        ∧ trace w2 = (trace Ref.world0 ++ [EvNew ud1; EvNew ud2])%list
        ∧ heap w2 !! ud1 = Some new_pool_data
        ∧ heap w2 !! ud2 = Some new_pool_data.
Proof.
  assert (Hopen1 : open "/mnt/pmem/a" "t1" Ref.world0 = Ok handle_4096 world_opened)
    by (vm_compute; reflexivity).
  destruct (open "/mnt/pmem/bad" "t1" world_opened) as [this2 w2| |] eqn:Hopen2;
    [|vm_compute in Hopen2; discriminate Hopen2
     |vm_compute in Hopen2; discriminate Hopen2].
  exists this2, w2. split; [exact Hopen1|]. split; [reflexivity|].
  exact (successive_opens_get_distinct_records _ _ _ _ _ _ _ _ _ Hopen1 Hopen2).
Defined.

Lemma root_after_open_never_throws_witness :
  pool_open "/mnt/pmem/a" "t1" Ref.world0 = Ok handle_4096 world_opened
  ∧ is_Throw (root 24 handle_4096 world_opened) = false.
Proof.
  assert (Hopen : pool_open "/mnt/pmem/a" "t1" Ref.world0
                  = Ok handle_4096 world_opened)
    by (vm_compute; reflexivity).
  split; [exact Hopen|].
  exact (proj1 (proj1 (root_after_open_never_throws 24 Ref.world0)
                  _ _ _ _ Hopen)).
Defined.
